(** * The SQLite device-key table of the key server

    A shallow embedding of [keyserver/storage/sqlite3/device_keys_table.go]:
    the table [keyserver_device_keys], its four prepared statements and the
    four operations [InsertDeviceKeys], [SelectDeviceKeysJSON],
    [SelectBatchDeviceKeys] and [SelectMaxStreamIDForUser].

    The Go code talks to SQLite through [database/sql].  The engine is
    modelled by a [World]: the committed rows of the table, the views of the
    transactions that are open, the readings the wall clock is going to give
    and a script of the failures the engine is going to report.  Every Go
    function is a computation in the monad [Go], which threads the world and
    can panic (a nil pointer dereference). *)

From stdpp Require Import base option list strings gmap fin_maps sorting.
From Stdlib Require Import ZArith Lia.
From Stdlib.Strings Require Import Byte.

Local Open Scope Z_scope.

(** ** Go values *)

(** [api.DeviceMessage] is declared outside this file; these are the four
    fields the table code reads and writes.  [StreamID] is a Go [int]. *)
Record DeviceMessage : Type := mkDeviceMessage {
  UserID : string;
  DeviceID : string;
  KeyJSON : list byte;
  StreamID : Z
}.

(** The range of a Go [int] on the 64-bit targets, which is also the range
    of a BIGINT column. *)
Definition int_min : Z := - 2 ^ 63.
Definition int_max : Z := 2 ^ 63 - 1.

(** Go errors.  [nil] is [None] in [option error]. *)
Inductive error : Type :=
| ErrNoRows                         (* sql.ErrNoRows *)
| ErrTxDone                         (* sql.ErrTxDone *)
| ErrEngine (msg : string)          (* whatever the driver reports *)
| ErrScan (column : nat) (v : Z).   (* a column value that does not fit *)

#[global] Instance error_eq_dec : EqDecision error.
Proof. solve_decision. Defined.

(** ** The relation *)

(** One row of [keyserver_device_keys]; the five columns of the schema. *)
Record Row : Type := mkRow {
  user_id : string;
  device_id : string;
  ts_added_secs : Z;
  key_json : string;
  stream_id : Z
}.

#[global] Instance Row_eq_dec : EqDecision Row.
Proof. solve_decision. Defined.

(** The columns of the [UNIQUE (user_id, device_id)] constraint. *)
Definition row_key (r : Row) : string * string := (user_id r, device_id r).

(** A transaction handle ([*sql.Tx] when it is not nil). *)
Abbreviation Tx := nat (only parsing).

Record World : Type := mkWorld {
  table : list Row;                 (* committed rows, in rowid order *)
  txs : gmap nat (list Row);        (* the view of every open transaction *)
  clock : list Z;                   (* next readings of time.Now().Unix() *)
  faults : list (option string)     (* next outcomes of the engine's calls *)
}.

Definition set_table (t : list Row) (w : World) : World :=
  mkWorld t (txs w) (clock w) (faults w).
Definition set_txs (m : gmap nat (list Row)) (w : World) : World :=
  mkWorld (table w) m (clock w) (faults w).
Definition set_clock (c : list Z) (w : World) : World :=
  mkWorld (table w) (txs w) c (faults w).
Definition set_faults (f : list (option string)) (w : World) : World :=
  mkWorld (table w) (txs w) (clock w) f.

(** ** The monad of Go computations *)

Inductive outcome (A : Type) : Type :=
| Returned (a : A) (w : World)
| Panicked.
Arguments Returned {A} a w.
Arguments Panicked {A}.

Definition Go (A : Type) : Type := World → outcome A.

Definition ret {A} (a : A) : Go A := λ w, Returned a w.
Definition bind {A B} (m : Go A) (k : A → Go B) : Go B :=
  λ w, match m w with
       | Returned a w' => k a w'
       | Panicked => Panicked
       end.
Definition panic {A} : Go A := λ _, Panicked.

Declare Scope go_scope.
Delimit Scope go_scope with go.
Notation "'let*' x ':=' m 'in' k" := (bind m (λ x, k))
  (at level 10, x name, m at level 100, k at level 200) : go_scope.
Notation "'let*' ' p ':=' m 'in' k" := (bind m (λ p, k))
  (at level 10, p pattern, m at level 100, k at level 200) : go_scope.
Local Open Scope go_scope.

(** ** The environment: clock and engine failures *)

(** [time.Now().Unix()]: the next reading of the clock (the epoch once the
    script of readings is used up). *)
Definition time_Now_Unix : Go Z :=
  λ w, Returned (hd 0 (clock w)) (set_clock (tl (clock w)) w).

(** Every call into the engine consumes one entry of the failure script; a
    script that is used up means the engine works. *)
Definition engine_call : Go (option error) :=
  λ w, Returned (ErrEngine <$> hd None (faults w)) (set_faults (tl (faults w)) w).

(** ** The four statements *)

(** [upsertDeviceKeysSQL]:
    INSERT INTO keyserver_device_keys (user_id, device_id, ts_added_secs, key_json, stream_id)
    VALUES ($1, $2, $3, $4, $5)
    ON CONFLICT (user_id, device_id) DO UPDATE SET key_json = $4, stream_id = $5.
    The row that conflicts keeps its place, its key columns and its
    [ts_added_secs]; without a conflict the new row goes to the end. *)
Fixpoint upsertDeviceKeysSQL (a1 a2 : string) (a3 : Z) (a4 : string) (a5 : Z)
    (t : list Row) : list Row :=
  match t with
  | [] => [mkRow a1 a2 a3 a4 a5]
  | r :: t' =>
      if decide (row_key r = (a1, a2))
      then mkRow (user_id r) (device_id r) (ts_added_secs r) a4 a5 :: t'
      else r :: upsertDeviceKeysSQL a1 a2 a3 a4 a5 t'
  end.

(** [selectDeviceKeysSQL]:
    SELECT key_json, stream_id FROM keyserver_device_keys WHERE user_id=$1 AND device_id=$2 *)
Definition selectDeviceKeysSQL (a1 a2 : string) (t : list Row) : list (string * Z) :=
  (λ r, (key_json r, stream_id r)) <$> filter (λ r, row_key r = (a1, a2)) t.

(** The order of the index that the UNIQUE constraint makes, among the rows
    of one user: by [device_id], byte by byte. *)
Definition device_le (r1 r2 : Row) : Prop :=
  String.leb (device_id r1) (device_id r2) = true.

#[global] Instance device_le_dec r1 r2 : Decision (device_le r1 r2).
Proof. unfold device_le. apply _. Defined.

(** The rows of a user as the engine walks them.  The statement has no
    ORDER BY; SQLite answers [WHERE user_id=$1] through the index of
    [UNIQUE (user_id, device_id)], which gives the rows by [device_id]
    and not in the order they were written. *)
Definition user_rows (a1 : string) (t : list Row) : list Row :=
  merge_sort device_le (filter (λ r, user_id r = a1) t).

(** [selectBatchDeviceKeysSQL]:
    SELECT device_id, key_json, stream_id FROM keyserver_device_keys WHERE user_id=$1 *)
Definition selectBatchDeviceKeysSQL (a1 : string) (t : list Row)
    : list (string * string * Z) :=
  (λ r, (device_id r, key_json r, stream_id r)) <$> user_rows a1 t.

(** SQL's MAX: NULL over no rows. *)
Definition sql_MAX (vs : list Z) : option Z :=
  match vs with
  | [] => None
  | v :: vs' => Some (foldl Z.max v vs')
  end.

(** [selectMaxStreamForUserSQL]:
    SELECT MAX(stream_id) FROM keyserver_device_keys WHERE user_id=$1.
    An aggregate without GROUP BY yields exactly one row. *)
Definition selectMaxStreamForUserSQL (a1 : string) (t : list Row) : list (option Z) :=
  [sql_MAX (stream_id <$> filter (λ r, user_id r = a1) t)].

(** ** [database/sql] *)

(** [txn.Stmt(stmt)] binds a prepared statement to a transaction.  It reads
    through [txn], so a nil [txn] is a nil pointer dereference. *)
Definition Tx_Stmt (txn : option Tx) : Go Tx :=
  match txn with
  | Some h => ret h
  | None => panic
  end.

(** [ExecContext] of a statement bound to the transaction [h]: a transaction
    that is over answers [sql.ErrTxDone]; otherwise the engine runs the
    statement on the view of [h], unless it fails. *)
Definition Stmt_ExecContext (h : Tx) (stmt : list Row → list Row) : Go (option error) :=
  λ w, match txs w !! h with
       | None => Returned (Some ErrTxDone) w
       | Some rows =>
           (let* err := engine_call in
            match err with
            | Some e => ret (Some e)
            | None => λ w', Returned None (set_txs (<[h := stmt rows]> (txs w')) w')
            end) w
       end.

(** [*sql.Row]: what [QueryRowContext] hands to [Scan]. *)
Record sqlRow (A : Type) : Type := mkSqlRow {
  row_err : option error;
  row_vals : list A
}.
Arguments mkSqlRow {A} _ _.
Arguments row_err {A} _.
Arguments row_vals {A} _.

(** [stmt.QueryRowContext(ctx, args...)] on the pooled connection: it sees
    the committed rows. *)
Definition Stmt_QueryRowContext {A} (query : list Row → list A) : Go (sqlRow A) :=
  let* err := engine_call in
  match err with
  | Some e => ret (mkSqlRow (Some e) [])
  | None => λ w, Returned (mkSqlRow None (query (table w))) w
  end.

(** [txn.Stmt(stmt).QueryRowContext(ctx, args...)]: it sees the view of the
    transaction [h]. *)
Definition TxStmt_QueryRowContext {A} (h : Tx) (query : list Row → list A) : Go (sqlRow A) :=
  λ w, match txs w !! h with
       | None => Returned (mkSqlRow (Some ErrTxDone) []) w
       | Some rows =>
           (let* err := engine_call in
            match err with
            | Some e => ret (mkSqlRow (Some e) [])
            | None => ret (mkSqlRow None (query rows))
            end) w
       end.

(** [row.Scan(dest...)]: the error of the query if it had one,
    [sql.ErrNoRows] if it gave no row, else the first row converted into the
    destinations by [conv].  The destinations keep their values on an
    error that comes before the conversion. *)
Definition Row_Scan {A B} (row : sqlRow A) (conv : A → B → option error * B) (dest : B)
    : option error * B :=
  match row_err row with
  | Some e => (Some e, dest)
  | None =>
      match row_vals row with
      | [] => (Some ErrNoRows, dest)
      | v :: _ => conv v dest
      end
  end.

(** Scanning a TEXT and a BIGINT column into a Go [string] and a Go [int]:
    both have the width of the column, the conversion cannot fail. *)
Definition scan_string_int (v : string * Z) (dest : string * Z) : option error * (string * Z) :=
  (None, v).

(** [sql.NullInt32]. *)
Record NullInt32 : Type := mkNullInt32 {
  Int32 : Z;
  Valid : bool
}.

Definition int32_min : Z := - 2 ^ 31.
Definition int32_max : Z := 2 ^ 31 - 1.

(** [NullInt32.Scan]: NULL clears the destination; any other value
    sets [Valid] and is then converted to 32 bits, which fails, leaving
    [Int32] as it was, when the value is out of range. *)
Definition NullInt32_Scan (v : option Z) (dest : NullInt32) : option error * NullInt32 :=
  match v with
  | None => (None, mkNullInt32 0 false)
  | Some z =>
      if decide (int32_min ≤ z ≤ int32_max)
      then (None, mkNullInt32 z true)
      else (Some (ErrScan 0 z), mkNullInt32 (Int32 dest) true)
  end.

(** [db.Begin()], as the writer of the spec opens its transaction: a new
    transaction whose view starts as the committed rows.  The opening is
    taken to succeed, and the view to be that of the moment of the opening;
    SQLite takes it at the first statement of the transaction, which in the
    writer follows at once. *)
Definition DB_Begin : Go Tx :=
  λ w, let h := fresh (dom (txs w)) in
       Returned h (set_txs (<[h := table w]> (txs w)) w).

(** [tx.Commit()], as the writer of the spec commits: the view of the
    transaction becomes the committed rows.  The commit is taken to
    succeed; a commit that the engine rejects is outside this model. *)
Definition Tx_Commit (h : Tx) : Go unit :=
  λ w, match txs w !! h with
       | None => Returned () w
       | Some rows => Returned () (set_table rows (set_txs (delete h (txs w)) w))
       end.

(** [tx.Rollback()]: the view of the transaction is dropped. *)
Definition Tx_Rollback (h : Tx) : Go unit :=
  λ w, Returned () (set_txs (delete h (txs w)) w).

(** ** [sqlutil.TransactionWriter] *)

(** Modelled from the spec: [sqlutil.TransactionWriter.Do] is not among the
    sources.  With an ambient transaction the operation executes within it
    and neither commits nor rolls back; without one the operation opens,
    commits and releases its own transaction (rolling it back when the
    operation fails).  The queue that lets one writer through at a time does
    not show in a sequential run and is left out. *)
Definition TransactionWriter_Do (txn : option Tx) (f : option Tx → Go (option error))
    : Go (option error) :=
  match txn with
  | Some h => f (Some h)
  | None =>
      let* h := DB_Begin in
      let* err := f (Some h) in
      match err with
      | None => let* _ := Tx_Commit h in ret None
      | Some e => let* _ := Tx_Rollback h in ret (Some e)
      end
  end.

(** ** The four operations *)

(** The body of the closure of [InsertDeviceKeys]: [for _, key := range keys]. *)
Fixpoint InsertDeviceKeys_loop (keys : list DeviceMessage) (txn : option Tx)
    : Go (option error) :=
  match keys with
  | [] => ret None
  | key :: keys' =>
      let* now := time_Now_Unix in
      let* stmt := Tx_Stmt txn in
      let* err := Stmt_ExecContext stmt
                    (upsertDeviceKeysSQL (UserID key) (DeviceID key) now
                       (String.string_of_list_byte (KeyJSON key)) (StreamID key)) in
      match err with
      | Some e => ret (Some e)
      | None => InsertDeviceKeys_loop keys' txn
      end
  end.

(** [s.writer.Do(s.db, txn, func(txn *sql.Tx) error { ... })] *)
Definition InsertDeviceKeys (txn : option Tx) (keys : list DeviceMessage)
    : Go (option error) :=
  TransactionWriter_Do txn (λ txn, InsertDeviceKeys_loop keys txn).

(** [keys[i].KeyJSON = ...; keys[i].StreamID = ...] *)
Definition set_key (keyJSON : list byte) (streamID : Z) (k : DeviceMessage) : DeviceMessage :=
  mkDeviceMessage (UserID k) (DeviceID k) keyJSON streamID.

(** [for i, key := range keys] of [SelectDeviceKeysJSON], over the indices
    that are left; the slice is updated in place and handed back. *)
Fixpoint SelectDeviceKeysJSON_loop (idx : list nat) (keys : list DeviceMessage)
    : Go (option error * list DeviceMessage) :=
  match idx with
  | [] => ret (None, keys)
  | i :: idx' =>
      match keys !! i with
      | None => ret (None, keys)
      | Some key =>
          let* row := Stmt_QueryRowContext (selectDeviceKeysSQL (UserID key) (DeviceID key)) in
          let '(err, (keyJSONStr, streamID)) := Row_Scan row scan_string_int (EmptyString, 0) in
          if decide (err ≠ None ∧ err ≠ Some ErrNoRows)
          then ret (err, keys)
          else SelectDeviceKeysJSON_loop idx'
                 (alter (set_key (String.list_byte_of_string keyJSONStr) streamID) i keys)
      end
  end.

Definition SelectDeviceKeysJSON (keys : list DeviceMessage)
    : Go (option error * list DeviceMessage) :=
  SelectDeviceKeysJSON_loop (seq 0 (length keys)) keys.

(** [for rows.Next() { ... }] of [SelectBatchDeviceKeys], then
    [return result, rows.Err()].  Every [rows.Next()] is a call into the
    engine; when it fails the loop ends and [rows.Err()] is that failure. *)
Fixpoint SelectBatchDeviceKeys_loop (userID : string) (deviceIDMap : gmap string bool)
    (deviceIDs : list string) (rows : list (string * string * Z))
    (result : list DeviceMessage) : Go (list DeviceMessage * option error) :=
  match rows with
  | [] =>
      let* err := engine_call in
      ret (result, err)
  | (deviceID, keyJSON, streamID) :: rows' =>
      let* err := engine_call in
      match err with
      | Some e => ret (result, Some e)
      | None =>
          let dk := mkDeviceMessage userID deviceID (String.list_byte_of_string keyJSON) streamID in
          SelectBatchDeviceKeys_loop userID deviceIDMap deviceIDs rows'
            (if default false (deviceIDMap !! DeviceID dk) || bool_decide (length deviceIDs = 0%nat)
             then result ++ [dk] else result)
      end
  end.

(** [deviceIDMap] is filled first; a query that fails returns [nil] and the
    error. *)
Definition SelectBatchDeviceKeys (userID : string) (deviceIDs : list string)
    : Go (list DeviceMessage * option error) :=
  let deviceIDMap := foldl (λ m d, <[d := true]> m) (∅ : gmap string bool) deviceIDs in
  let* err := engine_call in
  match err with
  | Some e => ret ([], Some e)
  | None =>
      λ w, SelectBatchDeviceKeys_loop userID deviceIDMap deviceIDs
             (selectBatchDeviceKeysSQL userID (table w)) [] w
  end.

(** The result [streamID] is an [int32]; it is zero unless the scan leaves
    a valid [nullStream]. *)
Definition SelectMaxStreamIDForUser (txn : option Tx) (userID : string)
    : Go (Z * option error) :=
  let nullStream := mkNullInt32 0 false in
  let* stmt := Tx_Stmt txn in
  let* row := TxStmt_QueryRowContext stmt (selectMaxStreamForUserSQL userID) in
  let '(err, nullStream) := Row_Scan row NullInt32_Scan nullStream in
  let err := if decide (err = Some ErrNoRows) then None else err in
  let streamID := if Valid nullStream then Int32 nullStream else 0 in
  ret (streamID, err).

(** ** Specification vocabulary *)

(** The engine reports no failure on its next [n] calls. *)
Definition quiet (n : nat) (fs : list (option string)) : Prop :=
  Forall (λ f, f = None) (take n fs).

(** The engine reports no failure at all. *)
Definition engine_ok (w : World) : Prop :=
  Forall (λ f, f = None) (faults w).

(** The [UNIQUE (user_id, device_id)] constraint of the schema. *)
Definition unique_keys (t : list Row) : Prop := NoDup (row_key <$> t).

(** The rows a write with transaction argument [txn] acts on: the view of
    the ambient transaction, or the committed rows that a transaction of
    the writer's own starts from. *)
Definition store_of (txn : option Tx) (w : World) : option (list Row) :=
  match txn with
  | Some h => txs w !! h
  | None => Some (table w)
  end.

(** What the loop of [InsertDeviceKeys] leaves in the rows when every
    write succeeds: one upsert per record, stamped with successive
    readings of the clock. *)
Fixpoint upsert_all (keys : list DeviceMessage) (clk : list Z) (t : list Row) : list Row :=
  match keys with
  | [] => t
  | key :: keys' =>
      upsert_all keys' (tl clk)
        (upsertDeviceKeysSQL (UserID key) (DeviceID key) (hd 0 clk)
           (String.string_of_list_byte (KeyJSON key)) (StreamID key) t)
  end.

(** The first stored row of a pair, as the point lookup reads it. *)
Definition stored (u d : string) (t : list Row) : option Row :=
  head (filter (λ r, row_key r = (u, d)) t).

(** The caller of an ambient transaction commits it; a transaction of the
    writer's own is committed already. *)
Definition caller_commits (txn : option Tx) : Go unit :=
  match txn with
  | Some h => Tx_Commit h
  | None => ret ()
  end.

(** The world once the rows a write with argument [txn] acts on are [rows]. *)
Definition write_rows (txn : option Tx) (rows : list Row) (w : World) : World :=
  match txn with
  | Some h => set_txs (<[h := rows]> (txs w)) w
  | None => set_table rows w
  end.

(** The world after [n] readings of the clock and [n] calls into the engine. *)
Definition advance (n : nat) (w : World) : World :=
  mkWorld (table w) (txs w) (drop n (clock w)) (drop n (faults w)).

(** What a point lookup that is answered leaves in an entry: the document
    and stream position of the stored row, or the empty document and zero. *)
Definition point_fill (t : list Row) (k : DeviceMessage) : DeviceMessage :=
  match stored (UserID k) (DeviceID k) t with
  | Some r => set_key (String.list_byte_of_string (key_json r)) (stream_id r) k
  | None => set_key [] 0 k
  end.

(** The first failure the engine reports within its next [n] calls: which
    call it is and what the engine says. *)
Fixpoint first_fault (n : nat) (fs : list (option string)) : option (nat * string) :=
  match n, fs with
  | S n', Some msg :: _ => Some (0%nat, msg)
  | S n', None :: fs' => prod_map S id <$> first_fault n' fs'
  | _, _ => None
  end.

(** A stored row as [SelectBatchDeviceKeys] reports it. *)
Definition row_message (r : Row) : DeviceMessage :=
  mkDeviceMessage (user_id r) (device_id r) (String.list_byte_of_string (key_json r))
    (stream_id r).

(** The filter policy of the batch lookup: every device when no device is
    asked for, else the devices asked for. *)
Definition wanted (deviceIDs : list string) (deviceID : string) : Prop :=
  deviceIDs = [] ∨ deviceID ∈ deviceIDs.

#[global] Instance wanted_dec deviceIDs deviceID : Decision (wanted deviceIDs deviceID).
Proof. unfold wanted. apply _. Defined.

(** ** Sample data *)

Definition sample_A : DeviceMessage := mkDeviceMessage "U1" "D1" ["a"%byte] 5.
Definition sample_B : DeviceMessage := mkDeviceMessage "U1" "D1" ["b"%byte] 7.
Definition sample_C : DeviceMessage := mkDeviceMessage "U1" "D2" ["c"%byte] 6.
Definition sample_D : DeviceMessage := mkDeviceMessage "U1" "D3" ["d"%byte] 8.
Definition sample_big : DeviceMessage := mkDeviceMessage "U1" "D1" ["a"%byte] 2147483648.

(** Queries whose [KeyJSON] and [StreamID] hold leftovers. *)
Definition query_D1 : DeviceMessage := mkDeviceMessage "U1" "D1" ["z"%byte] 99.
Definition query_D3 : DeviceMessage := mkDeviceMessage "U1" "D3" ["z"%byte] 99.

(** An empty database whose clock is going to read 100, 200, 300. *)
Definition world_empty : World := mkWorld [] ∅ [100; 200; 300] [].

(** A database with one row, written at 100; the clock is going to read 200. *)
Definition world_one : World := mkWorld [mkRow "U1" "D1" 100 "a" 5] ∅ [200] [].

(** A database with the rows of three devices of one user. *)
Definition world_three : World :=
  mkWorld [mkRow "U1" "D1" 100 "a" 5; mkRow "U1" "D2" 200 "c" 6; mkRow "U1" "D3" 300 "d" 8]
    ∅ [] [].

(** An empty database whose engine is going to reject the second write. *)
Definition world_faulty : World :=
  mkWorld [] ∅ [100; 200; 300] [None; Some "disk I/O error"; None].

(** ** Construction *)

(** The texts the statements are prepared from ([upsertDeviceKeysSQL] and
    the three others, as texts). *)
Inductive SQL : Type :=
| SQL_upsertDeviceKeys
| SQL_selectDeviceKeys
| SQL_selectBatchDeviceKeys
| SQL_selectMaxStreamForUser.

(** [*sql.Stmt]: nil, or the statement prepared from a text. *)
Abbreviation Stmt := (option SQL) (only parsing).

(** [deviceKeysStatements], without [db] and [writer]. *)
Record deviceKeysStatements : Type := mkDeviceKeysStatements {
  upsertDeviceKeysStmt : Stmt;
  selectDeviceKeysStmt : Stmt;
  selectBatchDeviceKeysStmt : Stmt;
  selectMaxStreamForUserStmt : Stmt
}.

(** [db.Exec(deviceKeysSchema)]: CREATE TABLE IF NOT EXISTS leaves the rows
    of a relation that exists as they are; a relation that does not exist
    yet is the relation without rows. *)
Definition DB_Exec_deviceKeysSchema : Go (option error) := engine_call.

(** [db.Prepare(query)]: the statement, or nil and the engine's error. *)
Definition DB_Prepare (query : SQL) : Go (Stmt * option error) :=
  let* err := engine_call in
  match err with
  | Some e => ret (None, Some e)
  | None => ret (Some query, None)
  end.

(** The schema first, then the four statements in the order of the source;
    every step returns [nil, err] when it fails. *)
Definition NewSqliteDeviceKeysTable : Go (option deviceKeysStatements * option error) :=
  let* err := DB_Exec_deviceKeysSchema in
  match err with
  | Some e => ret (None, Some e)
  | None =>
      let* '(upsertStmt, err) := DB_Prepare SQL_upsertDeviceKeys in
      match err with
      | Some e => ret (None, Some e)
      | None =>
          let* '(selectStmt, err) := DB_Prepare SQL_selectDeviceKeys in
          match err with
          | Some e => ret (None, Some e)
          | None =>
              let* '(batchStmt, err) := DB_Prepare SQL_selectBatchDeviceKeys in
              match err with
              | Some e => ret (None, Some e)
              | None =>
                  let* '(maxStmt, err) := DB_Prepare SQL_selectMaxStreamForUser in
                  match err with
                  | Some e => ret (None, Some e)
                  | None =>
                      ret (Some (mkDeviceKeysStatements upsertStmt selectStmt
                                   batchStmt maxStmt), None)
                  end
              end
          end
      end
  end.

(** ** Further vocabulary *)

(** What identifies a row and does not change once it is written: its
    pair and the time it was added. *)
Definition row_stamp (r : Row) : string * string * Z :=
  (user_id r, device_id r, ts_added_secs r).

(** The pair of a record. *)
Definition message_key (k : DeviceMessage) : string * string := (UserID k, DeviceID k).

(** A stream position that fits [int32]. *)
Definition fits_int32 (z : Z) : Prop := int32_min ≤ z ≤ int32_max.

(** A database whose rows were written for D3, D2 and D1, in this order. *)
Definition world_reversed : World :=
  mkWorld [mkRow "U1" "D3" 100 "d" 8; mkRow "U1" "D2" 200 "c" 6; mkRow "U1" "D1" 300 "a" 5]
    ∅ [] [].

(** A database whose third call into the engine is going to fail. *)
Definition world_three_faulty : World :=
  mkWorld [mkRow "U1" "D1" 100 "a" 5; mkRow "U1" "D2" 200 "c" 6; mkRow "U1" "D3" 300 "d" 8]
    ∅ [] [None; None; Some "interrupted"].

(** A database with one row and a transaction open on it. *)
Definition world_in_tx : World :=
  mkWorld [mkRow "U1" "D2" 200 "c" 6] {[ 0%nat := [mkRow "U1" "D2" 200 "c" 6] ]} [300] [].

(** * Lemmas *)

Implicit Types (w : World) (keys todo : list DeviceMessage) (txn : option Tx).
Implicit Types (h : nat) (rows : list Row) (vs : list Z).

(** ** The environment *)

Lemma quiet_S n fs : quiet (S n) fs → hd None fs = None ∧ quiet n (tl fs).
Proof.
  unfold quiet. destruct fs as [|f fs]; simpl.
  - intros _. split; [done|]. by rewrite take_nil.
  - intros H. apply Forall_cons in H as [-> H]. done.
Qed.

Lemma quiet_hd fs : hd None fs = None → quiet 1 fs.
Proof.
  unfold quiet. destruct fs as [|f fs]; simpl; [constructor|].
  intros ->. rewrite take_0. by repeat constructor.
Qed.

Lemma quiet_all n fs : Forall (λ f, f = None) fs → quiet n fs.
Proof. intros H. by apply Forall_take. Qed.

Lemma drop_S_tl {A} n (l : list A) : drop (S n) l = drop n (tl l).
Proof. destruct l; simpl; [by rewrite drop_nil | done]. Qed.

Lemma engine_ok_tl w : engine_ok w → engine_ok (set_faults (tl (faults w)) w).
Proof.
  unfold engine_ok. simpl. destruct (faults w); simpl; [done|].
  intros H. by apply Forall_cons in H as [_ H].
Qed.

Lemma engine_call_quiet w :
  quiet 1 (faults w) → engine_call w = Returned None (set_faults (tl (faults w)) w).
Proof.
  intros H. apply quiet_S in H as [H _]. unfold engine_call. by rewrite H.
Qed.

Lemma engine_call_ok w :
  engine_ok w → engine_call w = Returned None (set_faults (tl (faults w)) w).
Proof. intros H. apply engine_call_quiet. by apply quiet_all. Qed.

Lemma first_fault_None n : ∀ fs, first_fault n fs = None → quiet n fs.
Proof.
  unfold quiet. induction n as [|n IH]; intros fs H; [by rewrite take_0|].
  destruct fs as [|[msg|] fs]; simpl in *; [done..|].
  constructor; [done|]. apply IH. by destruct (first_fault n fs).
Qed.

Lemma first_fault_Some n : ∀ fs i msg,
  first_fault n fs = Some (i, msg) →
  (i < n)%nat ∧ quiet i fs ∧ fs !! i = Some (Some msg).
Proof.
  unfold quiet. induction n as [|n IH]; intros fs i msg H; [done|].
  destruct fs as [|[m|] fs]; simpl in *; [done| |].
  - injection H as <- <-. split_and!; [lia|by rewrite take_0|done].
  - destruct (first_fault n fs) as [[j m]|] eqn:E; [|done].
    simpl in H. injection H as <- <-.
    destruct (IH fs j m E) as (? & ? & ?).
    split_and!; [lia| |done]. simpl. by constructor.
Qed.

Lemma first_fault_mono n : ∀ fs i msg m,
  first_fault n fs = Some (i, msg) → (i < m)%nat → first_fault m fs = Some (i, msg).
Proof.
  induction n as [|n IH]; intros fs i msg m H Hm; [done|].
  destruct m as [|m]; [lia|].
  destruct fs as [|[f|] fs]; simpl in *; [done..|].
  destruct (first_fault n fs) as [[j f]|] eqn:E; [|done].
  simpl in H. injection H as <- <-.
  rewrite (IH fs j f m E); [done | lia].
Qed.

(** ** The loop of [InsertDeviceKeys] *)

(** One turn of the loop on an open transaction, up to the answer of the
    engine: the clock is read, the statement is bound, the write is sent. *)
Ltac insert_loop_body Hopen :=
  cbn [app InsertDeviceKeys_loop length];
  unfold bind at 1; simpl; unfold bind at 1; simpl; unfold bind at 1;
  unfold Stmt_ExecContext; simpl; rewrite Hopen;
  unfold bind at 1; unfold engine_call; simpl.

(** The loop when the engine accepts every write. *)
Lemma InsertDeviceKeys_loop_ok keys : ∀ w h rows,
  txs w !! h = Some rows →
  quiet (length keys) (faults w) →
  InsertDeviceKeys_loop keys (Some h) w =
    Returned None
      (mkWorld (table w) (<[h := upsert_all keys (clock w) rows]> (txs w))
         (drop (length keys) (clock w)) (drop (length keys) (faults w))).
Proof.
  induction keys as [|key keys IH]; intros w h rows Hh Hq.
  - simpl. rewrite !drop_0, insert_id by done. by destruct w.
  - apply quiet_S in Hq as [Hhd Hq].
    insert_loop_body Hh. rewrite Hhd. simpl.
    erewrite IH; [|simpl; apply lookup_insert_eq|simpl; done].
    simpl. rewrite insert_insert_eq, !drop_S_tl. done.
Qed.

(** The loop when the engine rejects the write of the record after [pre]. *)
Lemma InsertDeviceKeys_loop_fail pre : ∀ key post w h rows msg,
  txs w !! h = Some rows →
  quiet (length pre) (faults w) →
  faults w !! length pre = Some (Some msg) →
  InsertDeviceKeys_loop (pre ++ key :: post) (Some h) w =
    Returned (Some (ErrEngine msg))
      (mkWorld (table w) (<[h := upsert_all pre (clock w) rows]> (txs w))
         (drop (S (length pre)) (clock w)) (drop (S (length pre)) (faults w))).
Proof.
  induction pre as [|k pre IH]; intros key post w h rows msg Hh Hq Hf.
  - insert_loop_body Hh.
    destruct (faults w) as [|f fs] eqn:Ef; [done|]. simpl in Hf.
    injection Hf as ->. simpl. rewrite insert_id by done.
    rewrite drop_0. unfold ret, set_clock, set_faults. simpl.
    by rewrite drop_S_tl, drop_0.
  - apply quiet_S in Hq as [Hhd Hq].
    insert_loop_body Hh. rewrite Hhd. simpl.
    erewrite IH; [|simpl; apply lookup_insert_eq|simpl; done|].
    + simpl. rewrite insert_insert_eq. f_equal. f_equal.
      * by rewrite (drop_S_tl (S _)).
      * by rewrite (drop_S_tl (S _)).
    + simpl. destruct (faults w); [done|]. done.
Qed.

(** ** [InsertDeviceKeys] *)

Lemma fresh_tx_closed w : txs w !! fresh (dom (txs w)) = None.
Proof. apply not_elem_of_dom, is_fresh. Qed.

(** Every write accepted: the rows are the upserts of all the records. *)
Lemma InsertDeviceKeys_ok txn keys w rows :
  store_of txn w = Some rows →
  quiet (length keys) (faults w) →
  InsertDeviceKeys txn keys w =
    Returned None
      (advance (length keys) (write_rows txn (upsert_all keys (clock w) rows) w)).
Proof.
  intros Hs Hq. unfold InsertDeviceKeys, TransactionWriter_Do.
  destruct txn as [h|]; simpl in Hs.
  - by rewrite (InsertDeviceKeys_loop_ok keys w h rows).
  - injection Hs as <-. unfold bind at 1. simpl.
    unfold bind at 1.
    rewrite (InsertDeviceKeys_loop_ok keys _ (fresh (dom (txs w))) (table w));
      [|simpl; apply lookup_insert_eq|done].
    simpl. unfold bind, Tx_Commit. simpl.
    rewrite insert_insert_eq, lookup_insert_eq. simpl.
    rewrite delete_insert_eq, delete_id by apply fresh_tx_closed.
    done.
Qed.

(** The write after [pre] rejected: an ambient transaction keeps the
    upserts of [pre], a transaction of the writer's own is rolled back;
    the error is the engine's. *)
Lemma InsertDeviceKeys_fail txn pre key post w rows msg :
  store_of txn w = Some rows →
  quiet (length pre) (faults w) →
  faults w !! length pre = Some (Some msg) →
  InsertDeviceKeys txn (pre ++ key :: post) w =
    Returned (Some (ErrEngine msg))
      (advance (S (length pre))
         (match txn with
          | Some _ => write_rows txn (upsert_all pre (clock w) rows) w
          | None => w
          end)).
Proof.
  intros Hs Hq Hf. unfold InsertDeviceKeys, TransactionWriter_Do.
  destruct txn as [h|]; simpl in Hs.
  - by rewrite (InsertDeviceKeys_loop_fail pre key post w h rows msg).
  - injection Hs as <-. unfold bind at 1. simpl.
    unfold bind at 1.
    rewrite (InsertDeviceKeys_loop_fail pre key post _ (fresh (dom (txs w))) (table w) msg);
      [|simpl; apply lookup_insert_eq|done|done].
    simpl. unfold bind, Tx_Rollback. simpl.
    rewrite insert_insert_eq.
    rewrite delete_insert_eq, delete_id by apply fresh_tx_closed.
    done.
Qed.

(** [InsertDeviceKeys] on any failure script. *)
Lemma InsertDeviceKeys_run txn keys w rows :
  store_of txn w = Some rows →
  InsertDeviceKeys txn keys w =
    match first_fault (length keys) (faults w) with
    | None =>
        Returned None
          (advance (length keys) (write_rows txn (upsert_all keys (clock w) rows) w))
    | Some (i, msg) =>
        Returned (Some (ErrEngine msg))
          (advance (S i)
             (match txn with
              | Some _ => write_rows txn (upsert_all (take i keys) (clock w) rows) w
              | None => w
              end))
    end.
Proof.
  intros Hs. destruct (first_fault _ _) as [[i msg]|] eqn:E.
  - apply first_fault_Some in E as (Hi & Hq & Hf).
    destruct (lookup_lt_is_Some_2 keys i Hi) as [key Hkey].
    rewrite <- (take_drop_middle keys i key Hkey) at 1.
    assert (Hl : length (take i keys) = i) by (rewrite length_take; lia).
    rewrite (InsertDeviceKeys_fail txn _ key _ w rows msg Hs); rewrite Hl; done.
  - apply first_fault_None in E. by apply InsertDeviceKeys_ok.
Qed.

(** A transaction that is over rejects the first write. *)
Lemma InsertDeviceKeys_tx_done h key keys w :
  txs w !! h = None →
  InsertDeviceKeys (Some h) (key :: keys) w =
    Returned (Some ErrTxDone) (set_clock (tl (clock w)) w).
Proof.
  intros Hh. unfold InsertDeviceKeys, TransactionWriter_Do.
  cbn [InsertDeviceKeys_loop]. unfold bind at 1. simpl.
  unfold bind at 1. simpl. unfold bind at 1.
  unfold Stmt_ExecContext. simpl. by rewrite Hh.
Qed.

(** With an ambient transaction the committed rows are not touched and no
    transaction is opened or closed. *)
Lemma InsertDeviceKeys_ambient h keys w rows :
  txs w !! h = Some rows →
  ∃ err w',
    InsertDeviceKeys (Some h) keys w = Returned err w' ∧
    table w' = table w ∧ dom (txs w') = dom (txs w).
Proof.
  intros Hh. rewrite (InsertDeviceKeys_run (Some h) keys w rows Hh).
  assert (Hd : ∀ rows', dom (<[h := rows']> (txs w)) = dom (txs w)).
  { intros rows'. by apply dom_insert_lookup_L. }
  destruct (first_fault _ _) as [[i msg]|]; eexists _, _; (split; [done|]); simpl; auto.
Qed.

(** ** Worlds after a write *)

Lemma store_of_written txn rows n w :
  store_of txn (advance n (write_rows txn rows w)) = Some rows.
Proof. destruct txn as [h|]; simpl; [apply lookup_insert_eq | done]. Qed.

Lemma engine_ok_written txn rows n w :
  engine_ok w → engine_ok (advance n (write_rows txn rows w)).
Proof.
  unfold engine_ok. intros H. destruct txn; simpl; by apply Forall_drop.
Qed.

Lemma engine_ok_quiet n w : engine_ok w → quiet n (faults w).
Proof. apply quiet_all. Qed.

(** Once the writes are committed the table holds the rows they acted on. *)
Lemma caller_commits_table txn rows w :
  store_of txn w = Some rows →
  ∃ w', caller_commits txn w = Returned () w' ∧
        table w' = rows ∧ faults w' = faults w ∧ clock w' = clock w.
Proof.
  destruct txn as [h|]; simpl; intros Hs.
  - unfold Tx_Commit. rewrite Hs. eauto.
  - injection Hs as <-. eauto.
Qed.

Section upsert.

Variables (u d : string) (ts : Z) (kj : string) (sid : Z).

Local Abbreviation upsert := (upsertDeviceKeysSQL u d ts kj sid).

(** The keys of the table after an upsert: unchanged on a conflict, one
    more at the end otherwise. *)
Lemma upsert_keys t :
  row_key <$> upsert t =
    if decide ((u, d) ∈ row_key <$> t) then row_key <$> t else (row_key <$> t) ++ [(u, d)].
Proof.
  induction t as [|r t IH].
  - rewrite decide_False; [done|]. apply not_elem_of_nil.
  - cbn [upsertDeviceKeysSQL]. rewrite (fmap_cons _ r t).
    destruct (decide (row_key r = (u, d))) as [E|N].
    + rewrite decide_True; [done|]. rewrite <- E. apply list_elem_of_here.
    + rewrite fmap_cons, IH. destruct (decide ((u, d) ∈ row_key <$> t)) as [I|I].
      * rewrite decide_True; [done|]. by apply list_elem_of_further.
      * rewrite decide_False; [done|]. rewrite elem_of_cons. intros [?|?]; congruence.
Qed.

Lemma upsert_unique t : unique_keys t → unique_keys (upsert t).
Proof.
  unfold unique_keys. intros H. rewrite upsert_keys. case_decide; [done|].
  apply NoDup_app. split_and!; [done| |apply NoDup_singleton].
  intros k Hk Hk'. apply list_elem_of_singleton in Hk'. by subst.
Qed.

(** The upserted pair is stored, with the new document and stream
    position, and with the time of its first insertion. *)
Lemma upsert_stored t :
  stored u d (upsert t) =
    Some (mkRow u d (from_option ts_added_secs ts (stored u d t)) kj sid).
Proof.
  unfold stored. induction t as [|r t IH]; simpl.
  - rewrite filter_cons_True; [done|]. done.
  - destruct (decide (row_key r = (u, d))) as [E|N].
    + rewrite !filter_cons_True by done. simpl.
      unfold row_key in E. by injection E as -> ->.
    + rewrite !filter_cons_False by done. done.
Qed.

(** Other pairs are stored as before. *)
Lemma upsert_other u' d' t :
  (u', d') ≠ (u, d) →
  filter (λ r, row_key r = (u', d')) (upsert t) = filter (λ r, row_key r = (u', d')) t.
Proof.
  intros Hne. induction t as [|r t IH]; simpl.
  - rewrite filter_cons_False; [done|]. unfold row_key. simpl.
    intros E'. apply Hne. congruence.
  - destruct (decide (row_key r = (u, d))) as [E|N].
    + rewrite !filter_cons_False; [done| |]; unfold row_key in *;
        intros E'; apply Hne; simpl in E'; congruence.
    + rewrite !filter_cons. by rewrite IH.
Qed.

(** A second upsert of the same values changes nothing, whatever the
    clock reads by then. *)
Lemma upsert_twice ts' t :
  upsertDeviceKeysSQL u d ts' kj sid (upsert t) = upsert t.
Proof.
  induction t as [|r t IH]; simpl.
  - rewrite decide_True; done.
  - destruct (decide (row_key r = (u, d))) as [E|N]; simpl.
    + rewrite decide_True; done.
    + rewrite decide_False by done. by rewrite IH.
Qed.

(** An upsert of a pair that was upserted before adds no row. *)
Lemma upsert_replaces ts' kj' sid' t :
  length (upsertDeviceKeysSQL u d ts' kj' sid' (upsert t)) = length (upsert t).
Proof.
  induction t as [|r t IH]; simpl.
  - by rewrite decide_True.
  - destruct (decide (row_key r = (u, d))) as [E|N]; simpl.
    + by rewrite decide_True.
    + rewrite decide_False by done. simpl. by rewrite IH.
Qed.

End upsert.

(** ** The uniqueness constraint *)

Lemma filter_absent k t :
  k ∉ row_key <$> t → filter (λ r, row_key r = k) t = [].
Proof.
  induction t as [|r t IH]; [done|].
  rewrite fmap_cons, not_elem_of_cons. intros [Hne Hk].
  rewrite filter_cons_False by done. auto.
Qed.

Lemma unique_at_most_one k t :
  unique_keys t → (length (filter (λ r, row_key r = k) t) ≤ 1)%nat.
Proof.
  unfold unique_keys. induction t as [|r t IH]; [simpl; lia|].
  rewrite fmap_cons, NoDup_cons. intros [Hr Hu].
  destruct (decide (row_key r = k)) as [<-|N].
  - rewrite filter_cons_True by done. rewrite filter_absent by done. done.
  - rewrite filter_cons_False by done. auto.
Qed.

Lemma upsert_all_unique keys : ∀ clk t,
  unique_keys t → unique_keys (upsert_all keys clk t).
Proof.
  induction keys as [|key keys IH]; intros clk t Hu; [done|].
  simpl. by apply IH, upsert_unique.
Qed.

(** The constraint is an invariant of [InsertDeviceKeys], whatever the
    engine does. *)
Lemma InsertDeviceKeys_unique txn keys w rows :
  store_of txn w = Some rows →
  unique_keys rows →
  ∃ err w' rows',
    InsertDeviceKeys txn keys w = Returned err w' ∧
    store_of txn w' = Some rows' ∧ unique_keys rows'.
Proof.
  intros Hs Hu. rewrite (InsertDeviceKeys_run txn keys w rows Hs).
  destruct (first_fault _ _) as [[i msg]|].
  - destruct txn as [h|]; eexists _, _, _; (split; [done|]); simpl.
    + rewrite lookup_insert_eq. split; [done|]. by apply upsert_all_unique.
    + simpl in Hs. injection Hs as <-. done.
  - eexists _, _, _. split; [done|].
    rewrite store_of_written. split; [done|]. by apply upsert_all_unique.
Qed.

(** ** [SelectDeviceKeysJSON] *)

Lemma Stmt_QueryRowContext_quiet {A} (query : list Row → list A) w :
  quiet 1 (faults w) →
  Stmt_QueryRowContext query w =
    Returned (mkSqlRow None (query (table w))) (set_faults (tl (faults w)) w).
Proof.
  intros H. unfold Stmt_QueryRowContext, bind. by rewrite engine_call_quiet.
Qed.

(** One turn of the loop, up to the query: the entry at the index is read. *)
Ltac lookup_loop_body :=
  cbn [app length seq SelectDeviceKeysJSON_loop];
  rewrite list_lookup_middle by done;
  unfold bind at 1.

(** One answered lookup, as the loop body sees it. *)
Lemma Row_Scan_selectDeviceKeys k t :
  ∃ err kj sid,
    Row_Scan (mkSqlRow None (selectDeviceKeysSQL (UserID k) (DeviceID k) t))
      scan_string_int (EmptyString, 0) = (err, (kj, sid)) ∧
    (err = None ∨ err = Some ErrNoRows) ∧
    set_key (String.list_byte_of_string kj) sid k = point_fill t k.
Proof.
  unfold Row_Scan, selectDeviceKeysSQL, point_fill, stored. simpl.
  destruct (filter _ t) as [|r rs]; simpl.
  - exists (Some ErrNoRows), EmptyString, 0. auto.
  - exists None, (key_json r), (stream_id r). auto.
Qed.

Lemma SelectDeviceKeysJSON_loop_ok todo : ∀ done w,
  quiet (length todo) (faults w) →
  SelectDeviceKeysJSON_loop (seq (length done) (length todo)) (done ++ todo) w =
    Returned (None, done ++ (point_fill (table w) <$> todo))
      (set_faults (drop (length todo) (faults w)) w).
Proof.
  induction todo as [|k todo IH]; intros done w Hq.
  - simpl. rewrite drop_0. by destruct w.
  - apply quiet_S in Hq as [Hhd Hq].
    lookup_loop_body. rewrite Stmt_QueryRowContext_quiet by by apply quiet_hd.
    destruct (Row_Scan_selectDeviceKeys k (table w)) as (err & kj & sid & -> & Herr & Hfill).
    rewrite decide_False by (intros [? ?]; destruct Herr; congruence).
    rewrite alter_app_r_alt by lia. rewrite Nat.sub_diag. simpl alter.
    rewrite Hfill.
    specialize (IH (done ++ [point_fill (table w) k]) (set_faults (tl (faults w)) w)).
    rewrite length_app, Nat.add_1_r, <- app_assoc in IH. simpl in IH.
    rewrite IH by exact Hq. rewrite drop_S_tl, <- app_assoc. done.
Qed.

Lemma SelectDeviceKeysJSON_quiet keys w :
  quiet (length keys) (faults w) →
  SelectDeviceKeysJSON keys w =
    Returned (None, point_fill (table w) <$> keys)
      (set_faults (drop (length keys) (faults w)) w).
Proof.
  intros Hq. unfold SelectDeviceKeysJSON.
  exact (SelectDeviceKeysJSON_loop_ok keys [] w Hq).
Qed.

Lemma SelectDeviceKeysJSON_loop_fail pre : ∀ k post done w msg,
  quiet (length pre) (faults w) →
  faults w !! length pre = Some (Some msg) →
  SelectDeviceKeysJSON_loop (seq (length done) (length (pre ++ k :: post)))
      (done ++ pre ++ k :: post) w =
    Returned (Some (ErrEngine msg), done ++ (point_fill (table w) <$> pre) ++ k :: post)
      (set_faults (drop (S (length pre)) (faults w)) w).
Proof.
  induction pre as [|p pre IH]; intros k post done w msg Hq Hf.
  - lookup_loop_body. unfold Stmt_QueryRowContext, bind, engine_call.
    destruct (faults w) as [|f fs] eqn:Ef; [done|].
    injection Hf as ->. cbn -[decide].
    rewrite decide_True by done.
    unfold ret, set_faults. simpl. by rewrite drop_0.
  - apply quiet_S in Hq as [Hhd Hq].
    lookup_loop_body. rewrite Stmt_QueryRowContext_quiet by by apply quiet_hd.
    destruct (Row_Scan_selectDeviceKeys p (table w)) as (err & kj & sid & -> & Herr & Hfill).
    rewrite decide_False by (intros [? ?]; destruct Herr; congruence).
    rewrite alter_app_r_alt by lia. rewrite Nat.sub_diag. simpl alter.
    rewrite Hfill.
    specialize (IH k post (done ++ [point_fill (table w) p])
                  (set_faults (tl (faults w)) w) msg).
    rewrite length_app, Nat.add_1_r, <- app_assoc in IH. simpl in IH.
    rewrite IH; [| exact Hq | by destruct (faults w)].
    rewrite (drop_S_tl (S _)), <- app_assoc. done.
Qed.

(** [SelectDeviceKeysJSON] on any failure script: the entries before the
    first lookup that fails are filled in, the others are as they were. *)
Lemma SelectDeviceKeysJSON_run keys w :
  SelectDeviceKeysJSON keys w =
    match first_fault (length keys) (faults w) with
    | None =>
        Returned (None, point_fill (table w) <$> keys)
          (set_faults (drop (length keys) (faults w)) w)
    | Some (i, msg) =>
        Returned (Some (ErrEngine msg),
                  (point_fill (table w) <$> take i keys) ++ drop i keys)
          (set_faults (drop (S i) (faults w)) w)
    end.
Proof.
  destruct (first_fault _ _) as [[i msg]|] eqn:E.
  - apply first_fault_Some in E as (Hi & Hq & Hf).
    destruct (lookup_lt_is_Some_2 keys i Hi) as [key Hkey].
    assert (Hl : length (take i keys) = i) by (rewrite length_take; lia).
    pose proof (SelectDeviceKeysJSON_loop_fail (take i keys) key (drop (S i) keys) [] w msg)
      as H.
    rewrite Hl in H. specialize (H Hq Hf). simpl in H.
    rewrite (take_drop_middle keys i key Hkey) in H.
    rewrite <- (drop_S keys key i Hkey) in H.
    exact H.
  - apply first_fault_None in E. by apply SelectDeviceKeysJSON_quiet.
Qed.

(** The "no rows" condition of a lookup never leaves [SelectDeviceKeysJSON]. *)
Lemma SelectDeviceKeysJSON_never_ErrNoRows keys w :
  ∃ err keys' w',
    SelectDeviceKeysJSON keys w = Returned (err, keys') w' ∧ err ≠ Some ErrNoRows.
Proof.
  rewrite SelectDeviceKeysJSON_run.
  destruct (first_fault _ _) as [[i msg]|]; eauto.
Qed.

(** Whatever the outcome, the entries keep their number and their keys. *)
Lemma SelectDeviceKeysJSON_frame keys w :
  ∃ err keys' w',
    SelectDeviceKeysJSON keys w = Returned (err, keys') w' ∧
    UserID <$> keys' = UserID <$> keys ∧ DeviceID <$> keys' = DeviceID <$> keys.
Proof.
  assert (Hu : ∀ t (l : list DeviceMessage), UserID <$> (point_fill t <$> l) = UserID <$> l).
  { intros t l. rewrite <- list_fmap_compose. apply list_fmap_ext.
    intros _ k _. unfold point_fill. simpl. by destruct (stored _ _ _). }
  assert (Hd : ∀ t (l : list DeviceMessage), DeviceID <$> (point_fill t <$> l) = DeviceID <$> l).
  { intros t l. rewrite <- list_fmap_compose. apply list_fmap_ext.
    intros _ k _. unfold point_fill. simpl. by destruct (stored _ _ _). }
  rewrite SelectDeviceKeysJSON_run.
  destruct (first_fault _ _) as [[i msg]|]; eexists _, _, _; (split; [done|]).
  - rewrite !fmap_app, Hu, Hd, <- !fmap_app, take_drop. done.
  - by rewrite Hu, Hd.
Qed.

Section batch_lookup.

Variables (userID : string) (deviceIDs : list string).

Local Abbreviation deviceIDMap :=
  (foldl (λ (m : gmap string bool) d, <[d := true]> m) ∅ deviceIDs).

(** [deviceIDMap[d]] is true for the devices asked for, and for no other. *)
Lemma deviceIDMap_lookup_from (ids : list string) (d : string) : ∀ m : gmap string bool,
  default false (foldl (λ m d, <[d := true]> m) m ids !! d) =
    bool_decide (d ∈ ids) || default false (m !! d).
Proof.
  induction ids as [|a ids IH]; intros m; cbn [foldl].
  - rewrite bool_decide_eq_false_2; [done|]. apply not_elem_of_nil.
  - rewrite IH. destruct (decide (a = d)) as [->|Hne].
    + rewrite lookup_insert_eq. simpl.
      rewrite (bool_decide_eq_true_2 (d ∈ d :: ids)) by apply list_elem_of_here.
      by rewrite orb_true_r.
    + rewrite lookup_insert_ne by done. f_equal.
      apply bool_decide_ext. rewrite elem_of_cons. split; [auto|]. by intros [?|?].
Qed.

Lemma deviceIDMap_lookup (d : string) :
  default false (deviceIDMap !! d) = bool_decide (d ∈ deviceIDs).
Proof.
  rewrite deviceIDMap_lookup_from, lookup_empty. simpl.
  apply orb_false_r.
Qed.

Lemma include_iff_wanted (d : string) :
  default false (deviceIDMap !! d) || bool_decide (length deviceIDs = 0%nat) =
    bool_decide (wanted deviceIDs d).
Proof.
  rewrite deviceIDMap_lookup. unfold wanted.
  rewrite orb_comm, <- bool_decide_or. apply bool_decide_ext.
  by rewrite length_zero_iff_nil.
Qed.

(** The rows of a user as the engine walks them are the stored rows of the
    user, in some order. *)
Lemma user_rows_Permutation t :
  user_rows userID t ≡ₚ filter (λ r, user_id r = userID) t.
Proof. apply merge_sort_Permutation. Qed.

Lemma user_rows_user t : Forall (λ r, user_id r = userID) (user_rows userID t).
Proof.
  rewrite user_rows_Permutation. apply Forall_forall. intros r Hr.
  by apply list_elem_of_filter in Hr as [? _].
Qed.

Lemma user_rows_wanted t :
  filter (λ r, wanted deviceIDs (device_id r)) (user_rows userID t) ≡ₚ
    filter (λ r, user_id r = userID ∧ wanted deviceIDs (device_id r)) t.
Proof.
  rewrite user_rows_Permutation, list_filter_filter.
  erewrite list_filter_iff; [done|]. intros r. simpl. tauto.
Qed.

(** The loop over rows of the user when the engine delivers them all. *)
Lemma SelectBatchDeviceKeys_loop_ok (l : list Row) : ∀ result w,
  Forall (λ r, user_id r = userID) l →
  quiet (S (length l)) (faults w) →
  SelectBatchDeviceKeys_loop userID deviceIDMap deviceIDs
      ((λ r, (device_id r, key_json r, stream_id r)) <$> l) result w =
    Returned
      (result ++ (row_message <$> filter (λ r, wanted deviceIDs (device_id r)) l), None)
      (set_faults (drop (S (length l)) (faults w)) w).
Proof.
  induction l as [|r l IH]; intros result w Hu Hq.
  - simpl. unfold bind. rewrite engine_call_quiet by done.
    unfold ret. rewrite app_nil_r. by rewrite drop_S_tl, drop_0.
  - apply Forall_cons in Hu as [E Hu].
    cbn [fmap list_fmap length SelectBatchDeviceKeys_loop].
    apply quiet_S in Hq as [Hhd Hq].
    unfold bind at 1. unfold engine_call. rewrite Hhd. cbn [fmap option_fmap option_map].
    cbn [DeviceID]. rewrite include_iff_wanted.
    rewrite IH by done. rewrite (drop_S_tl (S _)).
    destruct (decide (wanted deviceIDs (device_id r))) as [W|W].
    + rewrite bool_decide_eq_true_2 by done.
      rewrite filter_cons_True by done.
      rewrite <- app_assoc, fmap_cons. unfold row_message at 2. by rewrite E.
    + rewrite bool_decide_eq_false_2 by done.
      by rewrite filter_cons_False by done.
Qed.

(** The whole lookup, in the order the engine delivers the rows. *)
Lemma SelectBatchDeviceKeys_delivered w :
  engine_ok w →
  ∃ w',
    SelectBatchDeviceKeys userID deviceIDs w =
      Returned
        (row_message <$>
           filter (λ r, wanted deviceIDs (device_id r)) (user_rows userID (table w)),
         None) w' ∧
    table w' = table w.
Proof.
  intros Hok. eexists. unfold SelectBatchDeviceKeys.
  unfold bind. rewrite engine_call_ok by done.
  unfold selectBatchDeviceKeysSQL. rewrite SelectBatchDeviceKeys_loop_ok.
  - simpl. split; reflexivity.
  - apply user_rows_user.
  - apply quiet_all. by apply engine_ok_tl.
Qed.

(** The whole lookup, whatever that order is. *)
Lemma SelectBatchDeviceKeys_ok w :
  engine_ok w →
  ∃ result w',
    SelectBatchDeviceKeys userID deviceIDs w = Returned (result, None) w' ∧
    result ≡ₚ
      row_message <$>
        filter (λ r, user_id r = userID ∧ wanted deviceIDs (device_id r)) (table w) ∧
    table w' = table w.
Proof.
  intros Hok. destruct (SelectBatchDeviceKeys_delivered w Hok) as (w' & Hrun & Ht).
  eexists _, w'. split; [exact Hrun|]. split; [|done].
  by rewrite user_rows_wanted.
Qed.

End batch_lookup.

(** ** [SelectMaxStreamIDForUser] *)

Lemma foldl_max_spec vs : ∀ a,
  foldl Z.max a vs ∈ a :: vs ∧ Forall (λ v, v ≤ foldl Z.max a vs) (a :: vs).
Proof.
  induction vs as [|v vs IH]; intros a; simpl.
  - split; [apply list_elem_of_here | repeat constructor; lia].
  - destruct (IH (Z.max a v)) as [Hin Hle].
    apply Forall_cons in Hle as [Hm Hle]. split.
    + apply elem_of_cons in Hin as [->|Hin].
      * destruct (Z.max_spec a v) as [[_ ->]|[_ ->]];
          [apply list_elem_of_further, list_elem_of_here | apply list_elem_of_here].
      * by do 2 apply list_elem_of_further.
    + repeat constructor; [lia..|done].
Qed.

(** SQL's MAX is the largest of the values. *)
Lemma sql_MAX_spec vs m :
  sql_MAX vs = Some m → m ∈ vs ∧ Forall (λ v, v ≤ m) vs.
Proof.
  destruct vs as [|v vs]; [done|]. simpl. intros [= <-]. apply foldl_max_spec.
Qed.

(** The query of [SelectMaxStreamIDForUser] once the engine answers it. *)
Lemma SelectMaxStreamIDForUser_quiet h userID w rows :
  txs w !! h = Some rows →
  quiet 1 (faults w) →
  SelectMaxStreamIDForUser (Some h) userID w =
    Returned
      (match sql_MAX (stream_id <$> filter (λ r, user_id r = userID) rows) with
       | None => (0, None)
       | Some m =>
           if decide (int32_min ≤ m ≤ int32_max) then (m, None)
           else (0, Some (ErrScan 0 m))
       end)
      (set_faults (tl (faults w)) w).
Proof.
  intros Hh Hq. unfold SelectMaxStreamIDForUser, Tx_Stmt.
  unfold bind at 1. unfold ret at 1. unfold bind at 1.
  unfold TxStmt_QueryRowContext. rewrite Hh.
  unfold bind at 1. rewrite engine_call_quiet by done.
  unfold ret at 1. unfold Row_Scan, selectMaxStreamForUserSQL. simpl.
  destruct (sql_MAX _) as [m|]; simpl; [|done].
  destruct (decide (int32_min ≤ m ≤ int32_max)); done.
Qed.

(** No row for the user: zero and no error. *)
Lemma SelectMaxStreamIDForUser_no_rows h userID w rows :
  txs w !! h = Some rows →
  quiet 1 (faults w) →
  filter (λ r, user_id r = userID) rows = [] →
  SelectMaxStreamIDForUser (Some h) userID w =
    Returned (0, None) (set_faults (tl (faults w)) w).
Proof.
  intros Hh Hq Hn. rewrite (SelectMaxStreamIDForUser_quiet h userID w rows) by done.
  by rewrite Hn.
Qed.

(** Stream positions of the user that all fit 32 bits: their maximum. *)
Lemma SelectMaxStreamIDForUser_in_range h userID w rows :
  txs w !! h = Some rows →
  quiet 1 (faults w) →
  filter (λ r, user_id r = userID) rows ≠ [] →
  Forall (λ r, int32_min ≤ stream_id r ≤ int32_max)
    (filter (λ r, user_id r = userID) rows) →
  ∃ m,
    SelectMaxStreamIDForUser (Some h) userID w =
      Returned (m, None) (set_faults (tl (faults w)) w) ∧
    m ∈ stream_id <$> filter (λ r, user_id r = userID) rows ∧
    Forall (λ r, stream_id r ≤ m) (filter (λ r, user_id r = userID) rows).
Proof.
  intros Hh Hq Hne Hr. rewrite (SelectMaxStreamIDForUser_quiet h userID w rows) by done.
  destruct (sql_MAX _) as [m|] eqn:E.
  - destruct (sql_MAX_spec _ _ E) as [Hin Hle]. exists m.
    rewrite decide_True; [by rewrite Forall_fmap in Hle|].
    apply list_elem_of_fmap in Hin as (r & -> & Hin).
    by apply (proj1 (Forall_forall _ _) Hr).
  - destruct (filter _ rows); done.
Qed.

(** * The claims *)

(** C1. Last write wins.  Let [A] and [B] be records of one (user, device)
    pair, written by two successive calls of [InsertDeviceKeys] that the
    engine accepts, into a store that satisfies the uniqueness constraint.
    Once the writes are committed, a point lookup of the pair returns no
    error and exactly [B]'s [KeyJSON] and [StreamID]; and the second upsert
    added no row: the store has as many rows as after the first, one of
    them for the pair. *)
Theorem clobber_last_write_wins (txn : option Tx) (A B q : DeviceMessage)
    (w : World) (rows : list Row) :
  store_of txn w = Some rows →
  unique_keys rows →
  engine_ok w →
  UserID A = UserID B → DeviceID A = DeviceID B →
  UserID q = UserID B → DeviceID q = DeviceID B →
  ∃ w1 w2 w3 w4 rows1 rows2,
    InsertDeviceKeys txn [A] w = Returned None w1 ∧
    InsertDeviceKeys txn [B] w1 = Returned None w2 ∧
    caller_commits txn w2 = Returned () w3 ∧
    SelectDeviceKeysJSON [q] w3 = Returned (None, [B]) w4 ∧
    store_of txn w1 = Some rows1 ∧
    store_of txn w2 = Some rows2 ∧
    table w3 = rows2 ∧
    length rows2 = length rows1 ∧
    length (filter (λ r, row_key r = (UserID B, DeviceID B)) rows2) = 1%nat.
Proof.
  intros Hs Hu Hok EuA EdA Euq Edq.
  pose proof (InsertDeviceKeys_ok txn [A] w rows Hs (engine_ok_quiet _ _ Hok)) as H1.
  set (rows1 := upsert_all [A] (clock w) rows) in *.
  set (w1 := advance (length [A]) (write_rows txn rows1 w)) in *.
  assert (Hs1 : store_of txn w1 = Some rows1) by apply store_of_written.
  assert (Hok1 : engine_ok w1) by by apply engine_ok_written.
  pose proof (InsertDeviceKeys_ok txn [B] w1 rows1 Hs1 (engine_ok_quiet _ _ Hok1)) as H2.
  set (rows2 := upsert_all [B] (clock w1) rows1) in *.
  set (w2 := advance (length [B]) (write_rows txn rows2 w1)) in *.
  assert (Hs2 : store_of txn w2 = Some rows2) by apply store_of_written.
  assert (Hok2 : engine_ok w2) by by apply engine_ok_written.
  destruct (caller_commits_table txn rows2 w2 Hs2) as (w3 & H3 & Ht3 & Hf3 & _).
  assert (Hq3 : quiet (length [q]) (faults w3)).
  { rewrite Hf3. by apply engine_ok_quiet. }
  pose proof (SelectDeviceKeysJSON_quiet [q] w3 Hq3) as H4.
  exists w1, w2, w3, (set_faults (drop (length [q]) (faults w3)) w3), rows1, rows2.
  split_and!; try done.
  - rewrite H4. do 3 f_equal. simpl. unfold point_fill.
    rewrite Ht3, Euq, Edq. subst rows2. simpl. rewrite upsert_stored. simpl.
    rewrite String.list_byte_of_string_of_list_byte.
    destruct B, q; simpl in *; by subst.
  - subst rows2 rows1. simpl. rewrite EuA, EdA. apply upsert_replaces.
  - subst rows2. simpl. apply Nat.le_antisymm.
    + apply unique_at_most_one, upsert_unique. subst rows1. simpl. by apply upsert_unique.
    + pose proof (upsert_stored (UserID B) (DeviceID B) (hd 0 (clock w1))
        (String.string_of_list_byte (KeyJSON B)) (StreamID B) rows1) as Hst.
      unfold stored in Hst. destruct (filter _ _); [done | simpl; lia].
Qed.

(** The hypotheses of [clobber_last_write_wins] hold on the sample data. *)
Lemma clobber_last_write_wins_witness :
  ∃ w1 w2 w3 w4 rows1 rows2,
    InsertDeviceKeys None [sample_A] world_one = Returned None w1 ∧
    InsertDeviceKeys None [sample_B] w1 = Returned None w2 ∧
    caller_commits None w2 = Returned () w3 ∧
    SelectDeviceKeysJSON [query_D1] w3 = Returned (None, [sample_B]) w4 ∧
    store_of None w1 = Some rows1 ∧
    store_of None w2 = Some rows2 ∧
    table w3 = rows2 ∧
    length rows2 = length rows1 ∧
    length (filter (λ r, row_key r = (UserID sample_B, DeviceID sample_B)) rows2) = 1%nat.
Proof.
  apply (clobber_last_write_wins None sample_A sample_B query_D1 world_one
           (table world_one)); try reflexivity.
  - unfold unique_keys. simpl. apply NoDup_singleton.
  - unfold engine_ok. simpl. constructor.
Defined.

(** C2, as amended.  When [InsertDeviceKeys] writes a record whose pair has
    a row already, the row takes the record's [KeyJSON] and [StreamID] and
    keeps its [ts_added_secs]: the statement's DO UPDATE sets [key_json] and
    [stream_id] only. *)
Theorem upsert_conflict_keeps_timestamp (txn : option Tx) (key : DeviceMessage)
    (w : World) (rows : list Row) (r : Row) :
  store_of txn w = Some rows →
  stored (UserID key) (DeviceID key) rows = Some r →
  quiet 1 (faults w) →
  ∃ w' rows',
    InsertDeviceKeys txn [key] w = Returned None w' ∧
    store_of txn w' = Some rows' ∧
    stored (UserID key) (DeviceID key) rows' =
      Some (mkRow (UserID key) (DeviceID key) (ts_added_secs r)
              (String.string_of_list_byte (KeyJSON key)) (StreamID key)).
Proof.
  intros Hs Hr Hq. eexists _, _. split_and!.
  - by apply InsertDeviceKeys_ok.
  - apply store_of_written.
  - simpl. by rewrite upsert_stored, Hr.
Qed.

(** The hypotheses of [upsert_conflict_keeps_timestamp] hold on the sample data. *)
Lemma upsert_conflict_keeps_timestamp_witness :
  ∃ w' rows',
    InsertDeviceKeys None [sample_B] world_one = Returned None w' ∧
    store_of None w' = Some rows' ∧
    stored "U1" "D1" rows' = Some (mkRow "U1" "D1" 100 "b" 7).
Proof.
  apply (upsert_conflict_keeps_timestamp None sample_B world_one (table world_one)
           (mkRow "U1" "D1" 100 "a" 5));
    [reflexivity | reflexivity | repeat constructor].
Defined.

(** C2, as the claim has it, fails: a row written at 100 and upserted again
    when the clock reads 200 has the new document and stream position and
    still the timestamp 100. *)
Lemma upsert_conflict_timestamp_counterexample :
  stored "U1" "D1" (table world_one) = Some (mkRow "U1" "D1" 100 "a" 5) ∧
  time_Now_Unix world_one = Returned 200 (set_clock [] world_one) ∧
  InsertDeviceKeys None [sample_B] world_one =
    Returned None (mkWorld [mkRow "U1" "D1" 100 "b" 7] ∅ [] []) ∧
  ts_added_secs <$> stored "U1" "D1" [mkRow "U1" "D1" 100 "b" 7] ≠ Some 200.
Proof. split_and!; [reflexivity | reflexivity | by vm_compute | by vm_compute]. Qed.

(** C6. Upsert idempotence.  Writing one record twice in succession leaves
    the database as writing it once does: the same committed rows and the
    same transaction views, timestamps included, whatever the clock reads
    at the second write. *)
Theorem upsert_idempotent (txn : option Tx) (key : DeviceMessage)
    (w : World) (rows : list Row) :
  store_of txn w = Some rows →
  quiet 2 (faults w) →
  ∃ w1 w2,
    InsertDeviceKeys txn [key] w = Returned None w1 ∧
    InsertDeviceKeys txn [key] w1 = Returned None w2 ∧
    table w2 = table w1 ∧ txs w2 = txs w1.
Proof.
  intros Hs Hq. apply quiet_S in Hq as [Hhd Hq].
  assert (Hq1 : quiet 1 (faults w)) by by apply quiet_hd.
  eexists _, _. split_and!.
  - by apply InsertDeviceKeys_ok.
  - apply InsertDeviceKeys_ok; [apply store_of_written|].
    destruct txn; simpl; by rewrite drop_S_tl, drop_0.
  - destruct txn; simpl; [done|]. apply upsert_twice.
  - destruct txn; simpl; [|done]. by rewrite insert_insert_eq, upsert_twice.
Qed.

(** The hypotheses of [upsert_idempotent] hold on the sample data. *)
Lemma upsert_idempotent_witness :
  ∃ w1 w2,
    InsertDeviceKeys None [sample_A] world_empty = Returned None w1 ∧
    InsertDeviceKeys None [sample_A] w1 = Returned None w2 ∧
    table w2 = table w1 ∧ txs w2 = txs w1.
Proof.
  apply (upsert_idempotent None sample_A world_empty (table world_empty));
    [reflexivity | repeat constructor].
Defined.

(** C8. A failed write ends the batch.  When the engine rejects the write
    of the record at index [i], [InsertDeviceKeys] returns the engine's
    error as it is, after [i + 1] readings of the clock and [i + 1] calls
    into the engine, exactly as if the records after index [i] were not
    there; when the engine accepts the write of every record it returns no
    error. *)
Theorem insert_stops_at_first_failure (txn : option Tx) (keys : list DeviceMessage)
    (w : World) (rows : list Row) :
  store_of txn w = Some rows →
  match first_fault (length keys) (faults w) with
  | None =>
      InsertDeviceKeys txn keys w =
        Returned None
          (advance (length keys) (write_rows txn (upsert_all keys (clock w) rows) w))
  | Some (i, msg) =>
      InsertDeviceKeys txn keys w =
        Returned (Some (ErrEngine msg))
          (advance (S i)
             (match txn with
              | Some _ => write_rows txn (upsert_all (take i keys) (clock w) rows) w
              | None => w
              end)) ∧
      InsertDeviceKeys txn keys w = InsertDeviceKeys txn (take (S i) keys) w
  end.
Proof.
  intros Hs. pose proof (InsertDeviceKeys_run txn keys w rows Hs) as Hrun.
  destruct (first_fault _ _) as [[i msg]|] eqn:E; [|done].
  split; [done|]. rewrite Hrun.
  rewrite (InsertDeviceKeys_run txn (take (S i) keys) w rows Hs).
  destruct (first_fault_Some _ _ _ _ E) as (Hi & _ & _).
  assert (Hl : length (take (S i) keys) = S i) by (rewrite length_take; lia).
  rewrite Hl, (first_fault_mono _ _ _ _ (S i) E) by lia.
  by rewrite take_take, Nat.min_l by lia.
Qed.

(** [insert_stops_at_first_failure] on a batch of three whose second write
    is rejected. *)
Lemma insert_stops_at_first_failure_witness :
  InsertDeviceKeys None [sample_A; sample_C; sample_D] world_faulty =
    Returned (Some (ErrEngine "disk I/O error")) (mkWorld [] ∅ [300] [None]) ∧
  InsertDeviceKeys None [sample_A; sample_C; sample_D] world_faulty =
    InsertDeviceKeys None [sample_A; sample_C] world_faulty.
Proof.
  exact (insert_stops_at_first_failure None [sample_A; sample_C; sample_D] world_faulty
           (table world_faulty) eq_refl).
Defined.

(** C9. [SelectMaxStreamIDForUser] needs a transaction: with a nil [txn]
    it panics, on the dereference in [txn.Stmt], whereas [InsertDeviceKeys]
    with a nil [txn] runs in a transaction of its own and returns. *)
Theorem select_max_nil_txn_panics (userID : string) (keys : list DeviceMessage)
    (w : World) :
  SelectMaxStreamIDForUser None userID w = Panicked ∧
  ∃ err w', InsertDeviceKeys None keys w = Returned err w'.
Proof.
  split; [done|].
  rewrite (InsertDeviceKeys_run None keys w (table w) eq_refl).
  destruct (first_fault _ _) as [[i msg]|]; eauto.
Qed.

(** C3. A missing pair is not an error.  When the engine answers every
    lookup, [SelectDeviceKeysJSON] returns no error, and every entry whose
    (user, device) pair has no stored row comes back with the empty
    document and stream position zero. *)
Theorem missing_pair_is_empty (keys : list DeviceMessage) (w : World) :
  quiet (length keys) (faults w) →
  ∃ keys' w',
    SelectDeviceKeysJSON keys w = Returned (None, keys') w' ∧
    ∀ i k, keys !! i = Some k →
           stored (UserID k) (DeviceID k) (table w) = None →
           keys' !! i = Some (mkDeviceMessage (UserID k) (DeviceID k) [] 0).
Proof.
  intros Hq. eexists _, _. split; [by apply SelectDeviceKeysJSON_quiet|].
  intros i k Hi Hs. rewrite list_lookup_fmap, Hi. simpl.
  unfold point_fill. by rewrite Hs.
Qed.

(** The hypothesis of [missing_pair_is_empty] holds on the sample data. *)
Lemma missing_pair_is_empty_witness :
  ∃ keys' w',
    SelectDeviceKeysJSON [query_D3] world_one = Returned (None, keys') w' ∧
    ∀ i k, [query_D3] !! i = Some k →
           stored (UserID k) (DeviceID k) (table world_one) = None →
           keys' !! i = Some (mkDeviceMessage (UserID k) (DeviceID k) [] 0).
Proof.
  apply (missing_pair_is_empty [query_D3] world_one). repeat constructor.
Defined.

(** C10. [SelectDeviceKeysJSON] overwrites.  When the engine answers every
    lookup, each entry of the slice comes back with its [UserID] and
    [DeviceID] as they were and with [KeyJSON] and [StreamID] taken from the
    stored row of its pair, or the empty document and zero when the pair
    has no row; what [KeyJSON] and [StreamID] held before plays no part. *)
Theorem point_lookup_overwrites (keys : list DeviceMessage) (w : World) :
  quiet (length keys) (faults w) →
  ∃ w',
    SelectDeviceKeysJSON keys w =
      Returned
        (None,
         (λ k, let row := stored (UserID k) (DeviceID k) (table w) in
               mkDeviceMessage (UserID k) (DeviceID k)
                 (from_option (λ r, String.list_byte_of_string (key_json r)) [] row)
                 (from_option stream_id 0 row)) <$> keys)
        w' ∧
    table w' = table w.
Proof.
  intros Hq. exists (set_faults (drop (length keys) (faults w)) w). split; [|done].
  rewrite SelectDeviceKeysJSON_quiet by done. f_equal. f_equal.
  apply list_fmap_ext. intros _ k _. unfold point_fill.
  by destruct (stored _ _ _).
Qed.

(** The hypothesis of [point_lookup_overwrites] holds on the sample data. *)
Lemma point_lookup_overwrites_witness :
  ∃ w',
    SelectDeviceKeysJSON [query_D1; query_D3] world_one =
      Returned
        (None, [mkDeviceMessage "U1" "D1" ["a"%byte] 5; mkDeviceMessage "U1" "D3" [] 0])
        w' ∧
    table w' = table world_one.
Proof.
  apply (point_lookup_overwrites [query_D1; query_D3] world_one). repeat constructor.
Defined.

(** C5. The filter of the batch lookup.  When the engine delivers the rows,
    [SelectBatchDeviceKeys] returns no error and, for an empty list of
    devices, a record for every stored row of the user; for a list that is
    not empty, a record for exactly the stored rows of the user whose device
    is in the list; in both cases each row once, in the order the engine
    delivers them.  Every record returned is one of a stored row: a device
    that is asked for and not stored gets no entry. *)
Theorem batch_lookup_filters (userID : string) (deviceIDs : list string) (w : World) :
  engine_ok w →
  ∃ result w',
    SelectBatchDeviceKeys userID deviceIDs w = Returned (result, None) w' ∧
    (deviceIDs = [] →
     result ≡ₚ row_message <$> filter (λ r, user_id r = userID) (table w)) ∧
    (deviceIDs ≠ [] →
     result ≡ₚ row_message <$>
                 filter (λ r, user_id r = userID ∧ device_id r ∈ deviceIDs) (table w)) ∧
    (∀ dk, dk ∈ result → ∃ r, r ∈ table w ∧ user_id r = userID ∧ dk = row_message r).
Proof.
  intros Hok.
  destruct (SelectBatchDeviceKeys_ok userID deviceIDs w Hok) as (result & w' & Hrun & Hp & _).
  exists result, w'. split; [exact Hrun|]. split_and!.
  - intros ->. rewrite Hp. erewrite list_filter_iff; [done|].
    intros r. unfold wanted. split; [by intros [? _] | auto].
  - intros Hne. rewrite Hp. erewrite list_filter_iff; [done|].
    intros r. unfold wanted. split; [by intros [? [?|?]] | intros [? ?]; auto].
  - intros dk Hdk. rewrite Hp in Hdk. apply list_elem_of_fmap in Hdk as (r & -> & Hr).
    apply list_elem_of_filter in Hr as [[Hu _] Hr]. eauto.
Qed.

(** The hypothesis of [batch_lookup_filters] holds on the sample data. *)
Lemma batch_lookup_filters_witness :
  ∃ result w',
    SelectBatchDeviceKeys "U1" ["D1"; "D3"; "D9"] world_three = Returned (result, None) w' ∧
    (["D1"; "D3"; "D9"] = [] →
     result ≡ₚ row_message <$> filter (λ r, user_id r = "U1") (table world_three)) ∧
    (["D1"; "D3"; "D9"] ≠ [] →
     result ≡ₚ row_message <$>
                 filter (λ r, user_id r = "U1" ∧ device_id r ∈ ["D1"; "D3"; "D9"])
                   (table world_three)) ∧
    (∀ dk, dk ∈ result →
           ∃ r, r ∈ table world_three ∧ user_id r = "U1" ∧ dk = row_message r).
Proof.
  apply (batch_lookup_filters "U1" ["D1"; "D3"; "D9"] world_three). constructor.
Defined.

(** C4, on a stream position beyond 32 bits.  2147483648 is a Go [int];
    [InsertDeviceKeys] stores it in the BIGINT column;
    [SelectMaxStreamIDForUser] scans the maximum into a [sql.NullInt32], the
    conversion fails, and the function returns zero and the conversion
    error, not the maximum. *)
Theorem select_max_beyond_int32 :
  int_min ≤ StreamID sample_big ≤ int_max ∧
  (let* _ := InsertDeviceKeys None [sample_big] in
   let* txn := DB_Begin in
   SelectMaxStreamIDForUser (Some txn) "U1") world_empty =
    Returned (0, Some (ErrScan 0 2147483648))
      (mkWorld [mkRow "U1" "D1" 100 "a" 2147483648]
         {[ 0%nat := [mkRow "U1" "D1" 100 "a" 2147483648] ]} [200; 300] []).
Proof. split; [by vm_compute | by vm_compute]. Qed.

(** The scenario of the design notes: (U1, D1) is written with stream
    position 5 and again with 7, (U1, D2) with 6; then the point lookup of
    (U1, D1) gives the second document and 7, the batch lookup gives the
    two devices, and the maximum for U1 is 7. *)
Example design_scenario :
  (let* e1 := InsertDeviceKeys None [sample_A] in
   let* e2 := InsertDeviceKeys None [sample_B] in
   let* e3 := InsertDeviceKeys None [sample_C] in
   let* point := SelectDeviceKeysJSON [query_D1] in
   let* batch := SelectBatchDeviceKeys "U1" [] in
   let* txn := DB_Begin in
   let* top := SelectMaxStreamIDForUser (Some txn) "U1" in
   ret (e1, e2, e3, point, batch, top)) world_empty =
    Returned
      (None, None, None,
       (None, [sample_B]),
       ([sample_B; sample_C], None),
       (7, None))
      (mkWorld [mkRow "U1" "D1" 100 "b" 7; mkRow "U1" "D2" 300 "c" 6]
         {[ 0%nat := [mkRow "U1" "D1" 100 "b" 7; mkRow "U1" "D2" 300 "c" 6] ]} [] []).
Proof. by vm_compute. Qed.

(** * Further properties *)

(** ** Batches of upserts *)

Lemma upsert_all_app pre post : ∀ clk t,
  upsert_all (pre ++ post) clk t =
    upsert_all post (drop (length pre) clk) (upsert_all pre clk t).
Proof.
  induction pre as [|k pre IH]; intros clk t; [done|].
  cbn [app upsert_all length]. by rewrite IH, drop_S_tl.
Qed.

(** Records of other pairs leave the rows of a pair as they are. *)
Lemma upsert_all_other u d keys : ∀ clk t,
  Forall (λ k, message_key k ≠ (u, d)) keys →
  filter (λ r, row_key r = (u, d)) (upsert_all keys clk t) =
    filter (λ r, row_key r = (u, d)) t.
Proof.
  induction keys as [|k keys IH]; intros clk t Hk; [done|].
  apply Forall_cons in Hk as [Hne Hk]. cbn [upsert_all].
  rewrite IH by done. apply upsert_other. unfold message_key in Hne. congruence.
Qed.

(** An upsert keeps the rows there are in place, with their pair and the
    time they were added; what it adds comes after them. *)
Lemma upsert_stamps u d ts kj sid t :
  (row_stamp <$> t) `prefix_of` (row_stamp <$> upsertDeviceKeysSQL u d ts kj sid t).
Proof.
  induction t as [|r t IH]; cbn [upsertDeviceKeysSQL].
  - apply prefix_nil.
  - destruct (decide (row_key r = (u, d))); rewrite !fmap_cons.
    + done.
    + by apply prefix_cons.
Qed.

Lemma upsert_all_stamps keys : ∀ clk t,
  (row_stamp <$> t) `prefix_of` (row_stamp <$> upsert_all keys clk t).
Proof.
  induction keys as [|k keys IH]; intros clk t; [done|].
  cbn [upsert_all]. etrans; [apply upsert_stamps | apply IH].
Qed.

Lemma store_of_advance txn n w : store_of txn (advance n w) = store_of txn w.
Proof. by destruct txn. Qed.

(** ** [InsertDeviceKeys], on any outcome *)

(** X1. Within one batch the last record of a pair wins: when the engine
    accepts every write of [pre ++ k :: post] and no record of [post] is for
    the pair of [k], the row of the pair holds the document and the stream
    position of [k]. *)
Theorem batch_last_record_wins (txn : option Tx) (pre post : list DeviceMessage)
    (k : DeviceMessage) (w : World) (rows : list Row) :
  store_of txn w = Some rows →
  quiet (length (pre ++ k :: post)) (faults w) →
  Forall (λ k', message_key k' ≠ message_key k) post →
  ∃ w' rows' r,
    InsertDeviceKeys txn (pre ++ k :: post) w = Returned None w' ∧
    store_of txn w' = Some rows' ∧
    stored (UserID k) (DeviceID k) rows' = Some r ∧
    key_json r = String.string_of_list_byte (KeyJSON k) ∧
    stream_id r = StreamID k.
Proof.
  intros Hs Hq Hpost. eexists _, _, _. split_and!.
  - by apply InsertDeviceKeys_ok.
  - apply store_of_written.
  - unfold stored. rewrite upsert_all_app. cbn [upsert_all].
    rewrite upsert_all_other by done. apply upsert_stored.
  - done.
  - done.
Qed.

(** The hypotheses of [batch_last_record_wins] hold on the sample data. *)
Lemma batch_last_record_wins_witness :
  ∃ w' rows' r,
    InsertDeviceKeys None ([sample_A] ++ sample_B :: [sample_C]) world_empty =
      Returned None w' ∧
    store_of None w' = Some rows' ∧
    stored (UserID sample_B) (DeviceID sample_B) rows' = Some r ∧
    key_json r = String.string_of_list_byte (KeyJSON sample_B) ∧
    stream_id r = StreamID sample_B.
Proof.
  apply (batch_last_record_wins None [sample_A] [sample_C] sample_B world_empty
           (table world_empty)).
  - reflexivity.
  - repeat constructor.
  - repeat constructor. by vm_compute.
Defined.

(** X2. [InsertDeviceKeys] touches the pairs of its records only: whatever
    the engine does, the rows of a pair that no record of the batch is for
    are the rows there were. *)
Theorem insert_keeps_other_pairs (txn : option Tx) (keys : list DeviceMessage)
    (w : World) (rows : list Row) (u d : string) :
  store_of txn w = Some rows →
  Forall (λ k, message_key k ≠ (u, d)) keys →
  ∃ err w' rows',
    InsertDeviceKeys txn keys w = Returned err w' ∧
    store_of txn w' = Some rows' ∧
    filter (λ r, row_key r = (u, d)) rows' = filter (λ r, row_key r = (u, d)) rows.
Proof.
  intros Hs Hk. rewrite (InsertDeviceKeys_run txn keys w rows Hs).
  destruct (first_fault _ _) as [[i msg]|].
  - destruct txn as [h|]; eexists _, _, _; (split; [done|]).
    + split; [apply store_of_written|]. apply upsert_all_other. by apply Forall_take.
    + rewrite store_of_advance. done.
  - eexists _, _, _. split; [done|]. split; [apply store_of_written|].
    by apply upsert_all_other.
Qed.

(** The hypotheses of [insert_keeps_other_pairs] hold on the sample data. *)
Lemma insert_keeps_other_pairs_witness :
  ∃ err w' rows',
    InsertDeviceKeys None [sample_C; sample_D] world_one = Returned err w' ∧
    store_of None w' = Some rows' ∧
    filter (λ r, row_key r = ("U1", "D1")) rows' =
      filter (λ r, row_key r = ("U1", "D1")) (table world_one).
Proof.
  apply (insert_keeps_other_pairs None [sample_C; sample_D] world_one (table world_one)).
  - reflexivity.
  - repeat constructor; by vm_compute.
Defined.

(** X3. [InsertDeviceKeys] keeps the uniqueness constraint: from rows that
    have one row a pair at most, whatever the engine does, it returns and
    leaves rows that have one row a pair at most. *)
Theorem insert_keeps_unique_pairs (txn : option Tx) (keys : list DeviceMessage)
    (w : World) (rows : list Row) :
  store_of txn w = Some rows →
  unique_keys rows →
  ∃ err w' rows',
    InsertDeviceKeys txn keys w = Returned err w' ∧
    store_of txn w' = Some rows' ∧ unique_keys rows'.
Proof.
  apply InsertDeviceKeys_unique.
Qed.

(** The hypotheses of [insert_keeps_unique_pairs] hold on the sample data. *)
Lemma insert_keeps_unique_pairs_witness :
  ∃ err w' rows',
    InsertDeviceKeys None [sample_A; sample_B; sample_C] world_one = Returned err w' ∧
    store_of None w' = Some rows' ∧ unique_keys rows'.
Proof.
  apply (insert_keeps_unique_pairs None [sample_A; sample_B; sample_C] world_one
           (table world_one)).
  - reflexivity.
  - unfold unique_keys. simpl. apply NoDup_singleton.
Defined.

(** X4. [InsertDeviceKeys] never removes or moves a row and never changes
    the time a row was added: whatever the engine does, the rows there were
    are the first rows afterwards, each with its pair and its
    [ts_added_secs]. *)
Theorem insert_never_removes (txn : option Tx) (keys : list DeviceMessage)
    (w : World) (rows : list Row) :
  store_of txn w = Some rows →
  ∃ err w' rows',
    InsertDeviceKeys txn keys w = Returned err w' ∧
    store_of txn w' = Some rows' ∧
    (row_stamp <$> rows) `prefix_of` (row_stamp <$> rows').
Proof.
  intros Hs. rewrite (InsertDeviceKeys_run txn keys w rows Hs).
  destruct (first_fault _ _) as [[i msg]|].
  - destruct txn as [h|]; eexists _, _, _; (split; [done|]).
    + split; [apply store_of_written|]. apply upsert_all_stamps.
    + rewrite store_of_advance. done.
  - eexists _, _, _. split; [done|]. split; [apply store_of_written|].
    apply upsert_all_stamps.
Qed.

(** The hypothesis of [insert_never_removes] holds on the sample data. *)
Lemma insert_never_removes_witness :
  ∃ err w' rows',
    InsertDeviceKeys None [sample_B; sample_C] world_one = Returned err w' ∧
    store_of None w' = Some rows' ∧
    (row_stamp <$> table world_one) `prefix_of` (row_stamp <$> rows').
Proof.
  apply (insert_never_removes None [sample_B; sample_C] world_one (table world_one)).
  reflexivity.
Defined.

(** ** [SelectDeviceKeysJSON], on any outcome *)

(** X6. A lookup that fails leaves the slice half filled: when the engine
    answers the first [i] lookups and fails on the next,
    [SelectDeviceKeysJSON] returns the engine's error, the first [i] entries
    are filled in and the entries from index [i] on are as the caller
    passed them. *)
Theorem point_lookup_failure_is_partial (keys : list DeviceMessage) (w : World)
    (i : nat) (msg : string) :
  (i < length keys)%nat →
  quiet i (faults w) →
  faults w !! i = Some (Some msg) →
  SelectDeviceKeysJSON keys w =
    Returned
      (Some (ErrEngine msg), (point_fill (table w) <$> take i keys) ++ drop i keys)
      (set_faults (drop (S i) (faults w)) w).
Proof.
  intros Hi Hq Hf.
  destruct (lookup_lt_is_Some_2 keys i Hi) as [key Hkey].
  assert (Hl : length (take i keys) = i) by (rewrite length_take; lia).
  pose proof (SelectDeviceKeysJSON_loop_fail (take i keys) key (drop (S i) keys) [] w msg)
    as H.
  rewrite Hl in H. specialize (H Hq Hf). simpl in H.
  rewrite (take_drop_middle keys i key Hkey) in H.
  by rewrite <- (drop_S keys key i Hkey) in H.
Qed.

(** [point_lookup_failure_is_partial] on two queries, the second of which
    the engine fails. *)
Lemma point_lookup_failure_is_partial_witness :
  SelectDeviceKeysJSON [query_D1; query_D3] (set_faults [None; Some "interrupted"] world_one) =
    Returned
      (Some (ErrEngine "interrupted"), [mkDeviceMessage "U1" "D1" ["a"%byte] 5; query_D3])
      (set_faults [] world_one).
Proof.
  apply (point_lookup_failure_is_partial [query_D1; query_D3]
           (set_faults [None; Some "interrupted"] world_one) 1 "interrupted").
  - simpl. lia.
  - repeat constructor.
  - reflexivity.
Defined.

(** X7. Whatever the engine does, [SelectDeviceKeysJSON] returns, the
    slice keeps its length and every entry its [UserID] and [DeviceID], and
    the error is never [sql.ErrNoRows]. *)
Theorem point_lookup_keeps_keys (keys : list DeviceMessage) (w : World) :
  ∃ err keys' w',
    SelectDeviceKeysJSON keys w = Returned (err, keys') w' ∧
    length keys' = length keys ∧
    UserID <$> keys' = UserID <$> keys ∧
    DeviceID <$> keys' = DeviceID <$> keys ∧
    err ≠ Some ErrNoRows.
Proof.
  destruct (SelectDeviceKeysJSON_frame keys w) as (err & keys' & w' & Hrun & Hu & Hd).
  destruct (SelectDeviceKeysJSON_never_ErrNoRows keys w) as (err' & keys'' & w'' & Hrun' & Hne).
  rewrite Hrun in Hrun'. injection Hrun' as <- <- <-.
  exists err, keys', w'. split_and!; try done.
  by rewrite <- (length_fmap UserID keys'), Hu, length_fmap.
Qed.

(** ** The lookups do not write *)

Lemma SelectBatchDeviceKeys_loop_reads userID (m : gmap string bool) deviceIDs
    (rs : list (string * string * Z)) : ∀ result w,
  ∃ result' err w',
    SelectBatchDeviceKeys_loop userID m deviceIDs rs result w = Returned (result', err) w' ∧
    table w' = table w ∧ txs w' = txs w ∧ clock w' = clock w.
Proof.
  induction rs as [|[[d kj] sid] rs IH]; intros result w.
  - cbn [SelectBatchDeviceKeys_loop]. unfold bind, engine_call, ret. eauto 10.
  - cbn [SelectBatchDeviceKeys_loop]. unfold bind at 1. unfold engine_call.
    destruct (hd None (faults w)) as [msg|]; cbn [fmap option_fmap option_map].
    + unfold ret. eauto 10.
    + match goal with |- context [SelectBatchDeviceKeys_loop _ _ _ _ ?r ?w0] =>
        destruct (IH r w0) as (result' & err & w' & -> & Ht & Hx & Hc) end.
      eauto 10.
Qed.

(** X8. The three lookups read only: whatever the engine does,
    [SelectDeviceKeysJSON], [SelectBatchDeviceKeys] and, in a transaction,
    [SelectMaxStreamIDForUser] return and leave the committed rows, the
    transactions and the clock as they were. *)
Theorem lookups_do_not_write (keys : list DeviceMessage) (userID : string)
    (deviceIDs : list string) (h : Tx) (w : World) :
  (∃ r w', SelectDeviceKeysJSON keys w = Returned r w' ∧
           table w' = table w ∧ txs w' = txs w ∧ clock w' = clock w) ∧
  (∃ r w', SelectBatchDeviceKeys userID deviceIDs w = Returned r w' ∧
           table w' = table w ∧ txs w' = txs w ∧ clock w' = clock w) ∧
  (∃ r w', SelectMaxStreamIDForUser (Some h) userID w = Returned r w' ∧
           table w' = table w ∧ txs w' = txs w ∧ clock w' = clock w).
Proof.
  split_and!.
  - rewrite SelectDeviceKeysJSON_run.
    destruct (first_fault _ _) as [[i msg]|]; eauto 10.
  - unfold SelectBatchDeviceKeys. unfold bind, engine_call.
    destruct (hd None (faults w)) as [msg|]; cbn [fmap option_fmap option_map].
    + unfold ret. eauto 10.
    + match goal with |- context [SelectBatchDeviceKeys_loop ?u ?m ?ids ?rs ?r ?w0] =>
        destruct (SelectBatchDeviceKeys_loop_reads u m ids rs r w0)
          as (result' & err & w' & -> & Ht & Hx & Hc) end.
      eauto 10.
  - unfold SelectMaxStreamIDForUser, Tx_Stmt.
    unfold bind at 1. unfold ret at 1. unfold bind at 1.
    unfold TxStmt_QueryRowContext.
    destruct (txs w !! h) as [rows|]; [|unfold ret; eauto 10].
    unfold bind at 1. unfold engine_call.
    destruct (hd None (faults w)) as [msg|]; cbn [fmap option_fmap option_map];
      unfold ret; [eauto 10|].
    destruct (Row_Scan _ _ _) as [err nullStream]. eauto 10.
Qed.

(** ** [SelectBatchDeviceKeys], when the rows stop early *)

(** The loop over rows of the user when [rows.Next()] fails after [i] rows. *)
Lemma SelectBatchDeviceKeys_loop_fail userID deviceIDs (l : list Row) : ∀ i msg result w,
  Forall (λ r, user_id r = userID) l →
  (i ≤ length l)%nat →
  quiet i (faults w) →
  faults w !! i = Some (Some msg) →
  SelectBatchDeviceKeys_loop userID
      (foldl (λ (m : gmap string bool) d, <[d := true]> m) ∅ deviceIDs) deviceIDs
      ((λ r, (device_id r, key_json r, stream_id r)) <$> l) result w =
    Returned
      (result ++ (row_message <$> filter (λ r, wanted deviceIDs (device_id r)) (take i l)),
       Some (ErrEngine msg))
      (set_faults (drop (S i) (faults w)) w).
Proof.
  induction l as [|r l IH]; intros i msg result w Hu Hi Hq Hf.
  - assert (i = 0%nat) as -> by (simpl in Hi; lia).
    cbn [fmap list_fmap SelectBatchDeviceKeys_loop]. unfold bind, engine_call.
    destruct (faults w) as [|f fs]; [done|]. injection Hf as ->. simpl.
    unfold ret, set_faults. simpl. by rewrite app_nil_r, drop_0.
  - apply Forall_cons in Hu as [Hr Hu].
    cbn [fmap list_fmap SelectBatchDeviceKeys_loop]. unfold bind at 1. unfold engine_call.
    destruct i as [|i].
    + destruct (faults w) as [|f fs]; [done|]. injection Hf as ->. simpl.
      unfold ret, set_faults. simpl. by rewrite app_nil_r, drop_0.
    + apply quiet_S in Hq as [Hhd Hq]. rewrite Hhd. cbn [fmap option_fmap option_map].
      cbn [DeviceID]. rewrite include_iff_wanted.
      rewrite (IH i msg); [|done|simpl in Hi; lia|exact Hq|by destruct (faults w)].
      rewrite (drop_S_tl (S _)). cbn [take].
      destruct (decide (wanted deviceIDs (device_id r))) as [W|W].
      * rewrite bool_decide_eq_true_2 by done. rewrite filter_cons_True by done.
        rewrite <- app_assoc, fmap_cons. unfold row_message at 2. by rewrite Hr.
      * rewrite bool_decide_eq_false_2 by done. by rewrite filter_cons_False by done.
Qed.

(** X9. A batch lookup that is interrupted returns what it has: when the
    query and the first [i] calls of [rows.Next()] succeed and the next one
    fails, [SelectBatchDeviceKeys] returns the engine's error together with
    the records of the wanted devices among the [i] rows delivered so far,
    which are [i] of the stored rows of the user, whatever the order the
    engine delivers them in; it does not return nil. *)
Theorem batch_lookup_failure_is_partial (userID : string) (deviceIDs : list string)
    (w : World) (i : nat) (msg : string) :
  (i ≤ length (filter (λ r, user_id r = userID) (table w)))%nat →
  quiet (S i) (faults w) →
  faults w !! S i = Some (Some msg) →
  ∃ seen,
    length seen = i ∧
    seen ⊆+ filter (λ r, user_id r = userID) (table w) ∧
    SelectBatchDeviceKeys userID deviceIDs w =
      Returned
        (row_message <$> filter (λ r, wanted deviceIDs (device_id r)) seen,
         Some (ErrEngine msg))
        (set_faults (drop (S (S i)) (faults w)) w).
Proof.
  intros Hi Hq Hf. apply quiet_S in Hq as [Hhd Hq].
  rewrite <- (Permutation_length (user_rows_Permutation userID (table w))) in Hi.
  exists (take i (user_rows userID (table w))). split_and!.
  - rewrite length_take. lia.
  - rewrite <- user_rows_Permutation. apply submseteq_take.
  - unfold SelectBatchDeviceKeys, bind, engine_call. rewrite Hhd.
    cbn [fmap option_fmap option_map]. unfold selectBatchDeviceKeysSQL.
    rewrite (SelectBatchDeviceKeys_loop_fail userID deviceIDs _ i msg).
    + simpl. by rewrite (drop_S_tl (S _)).
    + apply user_rows_user.
    + done.
    + exact Hq.
    + by destruct (faults w).
Qed.

(** [batch_lookup_failure_is_partial] on three stored devices, when the
    second [rows.Next()] fails. *)
Lemma batch_lookup_failure_is_partial_witness :
  ∃ seen,
    length seen = 1%nat ∧
    seen ⊆+ filter (λ r, user_id r = "U1") (table world_three_faulty) ∧
    SelectBatchDeviceKeys "U1" [] world_three_faulty =
      Returned
        (row_message <$> filter (λ r, wanted [] (device_id r)) seen,
         Some (ErrEngine "interrupted"))
        (set_faults (drop 3 (faults world_three_faulty)) world_three_faulty).
Proof.
  apply (batch_lookup_failure_is_partial "U1" [] world_three_faulty 1 "interrupted").
  - simpl. lia.
  - repeat constructor.
  - reflexivity.
Defined.

(** Rows written for D3, D2, D1 come back as D1, D2, D3; and when the
    second [rows.Next()] fails, D1 is what was delivered. *)
Example batch_lookup_by_device :
  SelectBatchDeviceKeys "U1" [] world_reversed =
    Returned
      ([mkDeviceMessage "U1" "D1" ["a"%byte] 5; mkDeviceMessage "U1" "D2" ["c"%byte] 6;
        mkDeviceMessage "U1" "D3" ["d"%byte] 8], None)
      world_reversed ∧
  SelectBatchDeviceKeys "U1" [] (set_faults [None; None; Some "interrupted"] world_reversed) =
    Returned
      ([mkDeviceMessage "U1" "D1" ["a"%byte] 5], Some (ErrEngine "interrupted"))
      world_reversed.
Proof. split; by vm_compute. Qed.

(** The loop sees the list of devices through its test only. *)
Lemma SelectBatchDeviceKeys_loop_ext userID (m m' : gmap string bool)
    (ids ids' : list string) (rs : list (string * string * Z)) :
  (∀ d, default false (m !! d) || bool_decide (length ids = 0%nat) =
        default false (m' !! d) || bool_decide (length ids' = 0%nat)) →
  ∀ result w,
    SelectBatchDeviceKeys_loop userID m ids rs result w =
      SelectBatchDeviceKeys_loop userID m' ids' rs result w.
Proof.
  intros Hsame. induction rs as [|[[d kj] sid] rs IH]; intros result w; [done|].
  cbn [SelectBatchDeviceKeys_loop]. unfold bind.
  destruct (engine_call w) as [[e|] w'|]; [done| |done].
  cbn [DeviceID]. rewrite Hsame. apply IH.
Qed.

(** X10. The list of devices is a set to [SelectBatchDeviceKeys]: two lists
    with the same members, whatever their order and repetitions, give the
    same result in every state of the database and of the engine. *)
Theorem batch_lookup_devices_as_set (userID : string) (deviceIDs deviceIDs' : list string)
    (w : World) :
  (∀ d, d ∈ deviceIDs ↔ d ∈ deviceIDs') →
  SelectBatchDeviceKeys userID deviceIDs w = SelectBatchDeviceKeys userID deviceIDs' w.
Proof.
  intros Hsame. unfold SelectBatchDeviceKeys, bind.
  destruct (engine_call w) as [[e|] w'|]; [done| |done].
  apply SelectBatchDeviceKeys_loop_ext. intros d.
  rewrite !include_iff_wanted. apply bool_decide_ext. unfold wanted.
  rewrite Hsame. apply or_iff_compat_r.
  split; intros ->.
  - destruct deviceIDs' as [|d' ?]; [done|].
    by destruct (not_elem_of_nil d'); apply Hsame, list_elem_of_here.
  - destruct deviceIDs as [|d' ?]; [done|].
    by destruct (not_elem_of_nil d'); apply Hsame, list_elem_of_here.
Qed.

(** The hypothesis of [batch_lookup_devices_as_set] holds on the sample data. *)
Lemma batch_lookup_devices_as_set_witness :
  SelectBatchDeviceKeys "U1" ["D1"; "D3"] world_three =
    SelectBatchDeviceKeys "U1" ["D3"; "D1"; "D3"] world_three.
Proof.
  apply (batch_lookup_devices_as_set "U1" ["D1"; "D3"] ["D3"; "D1"; "D3"] world_three).
  intros d. rewrite !elem_of_cons, !elem_of_nil. tauto.
Defined.

Lemma filter_user_devices_NoDup userID (P : Row → Prop) `{∀ r, Decision (P r)} t :
  unique_keys t →
  NoDup (device_id <$> filter (λ r, user_id r = userID ∧ P r) t).
Proof.
  unfold unique_keys. induction t as [|r t IH]; [intros _; apply NoDup_nil_2|].
  rewrite fmap_cons, NoDup_cons. intros [Hr Hu].
  destruct (decide (user_id r = userID ∧ P r)) as [[E HP]|N].
  - rewrite filter_cons_True by done. rewrite fmap_cons. apply NoDup_cons. split; [|auto].
    intros Hin. apply Hr.
    apply list_elem_of_fmap in Hin as (r' & Hd & Hin).
    apply list_elem_of_filter in Hin as [[E' _] Hin].
    apply list_elem_of_fmap. exists r'. split; [|done].
    unfold row_key. congruence.
  - rewrite filter_cons_False by done. auto.
Qed.

(** X11. Under the uniqueness constraint a batch lookup that the engine
    answers reports a device once at most, and every record it returns
    carries the [UserID] that was asked for. *)
Theorem batch_lookup_one_record_per_device (userID : string) (deviceIDs : list string)
    (w : World) :
  engine_ok w →
  unique_keys (table w) →
  ∃ result w',
    SelectBatchDeviceKeys userID deviceIDs w = Returned (result, None) w' ∧
    NoDup (DeviceID <$> result) ∧
    Forall (λ dk, UserID dk = userID) result.
Proof.
  intros Hok Hu.
  destruct (SelectBatchDeviceKeys_ok userID deviceIDs w Hok) as (result & w' & Hrun & Hp & _).
  exists result, w'. split; [exact Hrun|]. split.
  - rewrite Hp, <- list_fmap_compose.
    by apply (filter_user_devices_NoDup userID (λ r, wanted deviceIDs (device_id r))).
  - rewrite Hp. apply Forall_fmap, Forall_forall. intros r Hr.
    by apply list_elem_of_filter in Hr as [[? _] _].
Qed.

(** The hypotheses of [batch_lookup_one_record_per_device] hold on the
    sample data. *)
Lemma batch_lookup_one_record_per_device_witness :
  ∃ result w',
    SelectBatchDeviceKeys "U1" [] world_three = Returned (result, None) w' ∧
    NoDup (DeviceID <$> result) ∧
    Forall (λ dk, UserID dk = "U1") result.
Proof.
  apply (batch_lookup_one_record_per_device "U1" [] world_three).
  - constructor.
  - unfold unique_keys. apply (bool_decide_unpack _). by vm_compute.
Defined.

(** ** [SelectMaxStreamIDForUser] *)

(** X12. When the stream positions stored for the user fit 32 bits and the
    engine answers, [SelectMaxStreamIDForUser] returns no error and the
    largest of them: a stored position that no stored position of the user
    exceeds. *)
Theorem select_max_within_int32 (h : Tx) (userID : string) (w : World) (rows : list Row) :
  txs w !! h = Some rows →
  quiet 1 (faults w) →
  filter (λ r, user_id r = userID) rows ≠ [] →
  Forall (λ r, fits_int32 (stream_id r)) (filter (λ r, user_id r = userID) rows) →
  ∃ m w',
    SelectMaxStreamIDForUser (Some h) userID w = Returned (m, None) w' ∧
    m ∈ stream_id <$> filter (λ r, user_id r = userID) rows ∧
    Forall (λ r, stream_id r ≤ m) (filter (λ r, user_id r = userID) rows).
Proof.
  intros Hh Hq Hne Hr.
  destruct (SelectMaxStreamIDForUser_in_range h userID w rows Hh Hq Hne Hr)
    as (m & Hrun & Hin & Hle).
  eauto.
Qed.

(** The hypotheses of [select_max_within_int32] hold on the sample data. *)
Lemma select_max_within_int32_witness :
  ∃ m w',
    SelectMaxStreamIDForUser (Some 0%nat) "U1" world_in_tx = Returned (m, None) w' ∧
    m ∈ stream_id <$> filter (λ r, user_id r = "U1") [mkRow "U1" "D2" 200 "c" 6] ∧
    Forall (λ r, stream_id r ≤ m)
      (filter (λ r, user_id r = "U1") [mkRow "U1" "D2" 200 "c" 6]).
Proof.
  apply (select_max_within_int32 0%nat "U1" world_in_tx [mkRow "U1" "D2" 200 "c" 6]).
  - reflexivity.
  - repeat constructor.
  - by vm_compute.
  - repeat constructor; by vm_compute.
Defined.

(** X13. For a user without a stored row [SelectMaxStreamIDForUser],
    answered by the engine, returns zero and no error: the NULL of the
    aggregate leaves [nullStream] invalid. *)
Theorem select_max_no_rows (h : Tx) (userID : string) (w : World) (rows : list Row) :
  txs w !! h = Some rows →
  quiet 1 (faults w) →
  filter (λ r, user_id r = userID) rows = [] →
  SelectMaxStreamIDForUser (Some h) userID w =
    Returned (0, None) (set_faults (tl (faults w)) w).
Proof. apply SelectMaxStreamIDForUser_no_rows. Qed.

(** The hypotheses of [select_max_no_rows] hold on the sample data. *)
Lemma select_max_no_rows_witness :
  SelectMaxStreamIDForUser (Some 0%nat) "U9" world_in_tx =
    Returned (0, None) (set_faults [] world_in_tx).
Proof.
  apply (select_max_no_rows 0%nat "U9" world_in_tx [mkRow "U1" "D2" 200 "c" 6]).
  - reflexivity.
  - repeat constructor.
  - reflexivity.
Defined.

(** X14. Whatever the engine does and whatever is stored,
    [SelectMaxStreamIDForUser] in a transaction returns a stream position
    that fits [int32], which is zero when there is an error, and an error
    that is never [sql.ErrNoRows]. *)
Theorem select_max_result_fits (h : Tx) (userID : string) (w : World) :
  ∃ streamID err w',
    SelectMaxStreamIDForUser (Some h) userID w = Returned (streamID, err) w' ∧
    fits_int32 streamID ∧
    err ≠ Some ErrNoRows ∧
    (err ≠ None → streamID = 0).
Proof.
  assert (H0 : fits_int32 0) by (unfold fits_int32, int32_min, int32_max; lia).
  unfold SelectMaxStreamIDForUser, Tx_Stmt.
  unfold bind at 1. unfold ret at 1. unfold bind at 1.
  unfold TxStmt_QueryRowContext.
  destruct (txs w !! h) as [rows|]; [|unfold ret; simpl; eauto 10].
  unfold bind at 1. unfold engine_call.
  destruct (hd None (faults w)) as [msg|]; cbn [fmap option_fmap option_map];
    unfold ret; [simpl; eauto 10|].
  unfold Row_Scan, selectMaxStreamForUserSQL. simpl.
  destruct (sql_MAX _) as [m|]; simpl.
  - destruct (decide (int32_min ≤ m ≤ int32_max)); simpl.
    + eexists _, _, _. split; [done|]. split_and!; done.
    + eauto 10.
  - eexists _, _, _. split; [done|]. split_and!; done.
Qed.

(** ** The operations together *)

(** The rows after an upsert: the rows there were, or the upserted values. *)
Lemma upsert_elem u d ts kj sid r' : ∀ t,
  r' ∈ upsertDeviceKeysSQL u d ts kj sid t →
  r' ∈ t ∨ (row_key r' = (u, d) ∧ key_json r' = kj ∧ stream_id r' = sid).
Proof.
  induction t as [|r t IH]; cbn [upsertDeviceKeysSQL].
  - intros H. apply list_elem_of_singleton in H as ->. by right.
  - destruct (decide (row_key r = (u, d))) as [E|N]; rewrite !elem_of_cons.
    + intros [->|H]; [by right | by left; right].
    + intros [->|H]; [by left; left|]. destruct (IH H) as [?|?]; [by left; right | by right].
Qed.

Lemma stored_elem u d t r :
  stored u d t = Some r → r ∈ t ∧ row_key r = (u, d).
Proof.
  unfold stored. intros H. apply head_Some_elem_of in H.
  by apply list_elem_of_filter in H as [? ?].
Qed.

(** X15. A transaction reads its own writes: after [InsertDeviceKeys] has
    written a record in the transaction [h], [SelectMaxStreamIDForUser] in
    [h] for the user of the record returns no error and a maximum that is
    not below the record's stream position, when the positions involved
    fit 32 bits. *)
Theorem insert_then_select_max (h : Tx) (k : DeviceMessage) (w : World) (rows : list Row) :
  txs w !! h = Some rows →
  quiet 2 (faults w) →
  fits_int32 (StreamID k) →
  Forall (λ r, fits_int32 (stream_id r)) (filter (λ r, user_id r = UserID k) rows) →
  ∃ w1 m w2,
    InsertDeviceKeys (Some h) [k] w = Returned None w1 ∧
    SelectMaxStreamIDForUser (Some h) (UserID k) w1 = Returned (m, None) w2 ∧
    StreamID k ≤ m ∧ fits_int32 m.
Proof.
  intros Hh Hq Hk Hrows. apply quiet_S in Hq as [Hhd Hq].
  pose proof (InsertDeviceKeys_ok (Some h) [k] w rows Hh (quiet_hd _ Hhd)) as H1.
  set (t' := upsert_all [k] (clock w) rows) in *.
  set (w1 := advance (length [k]) (write_rows (Some h) t' w)) in *.
  assert (Hh1 : txs w1 !! h = Some t') by apply (store_of_written (Some h)).
  assert (Hq1 : quiet 1 (faults w1)).
  { subst w1. simpl. by rewrite drop_S_tl, drop_0. }
  assert (Hst : ∃ r0, stored (UserID k) (DeviceID k) t' = Some r0 ∧ stream_id r0 = StreamID k).
  { subst t'. simpl. rewrite upsert_stored. eauto. }
  destruct Hst as (r0 & Hr0 & Hsid). apply stored_elem in Hr0 as [Hin0 Hkey0].
  assert (Hu0 : r0 ∈ filter (λ r, user_id r = UserID k) t').
  { apply list_elem_of_filter. split; [|done]. unfold row_key in Hkey0. congruence. }
  assert (Hfit : Forall (λ r, fits_int32 (stream_id r))
                   (filter (λ r, user_id r = UserID k) t')).
  { apply Forall_forall. intros r Hr. apply list_elem_of_filter in Hr as [Hu Hr].
    subst t'. simpl in Hr. apply upsert_elem in Hr as [Hr|(_ & _ & ->)]; [|done].
    apply (proj1 (Forall_forall _ _) Hrows). by apply list_elem_of_filter. }
  destruct (SelectMaxStreamIDForUser_in_range h (UserID k) w1 t' Hh1 Hq1) as (m & Hrun & Hm & Hle).
  { intros Hnil. rewrite Hnil in Hu0. by apply not_elem_of_nil in Hu0. }
  { exact Hfit. }
  exists w1, m, (set_faults (tl (faults w1)) w1). split_and!; [done|done| |].
  - rewrite <- Hsid. by apply (proj1 (Forall_forall _ _) Hle).
  - apply list_elem_of_fmap in Hm as (r & -> & Hr).
    by apply (proj1 (Forall_forall _ _) Hfit).
Qed.

(** The hypotheses of [insert_then_select_max] hold on the sample data. *)
Lemma insert_then_select_max_witness :
  ∃ w1 m w2,
    InsertDeviceKeys (Some 0%nat) [sample_A] world_in_tx = Returned None w1 ∧
    SelectMaxStreamIDForUser (Some 0%nat) (UserID sample_A) w1 = Returned (m, None) w2 ∧
    StreamID sample_A ≤ m ∧ fits_int32 m.
Proof.
  apply (insert_then_select_max 0%nat sample_A world_in_tx [mkRow "U1" "D2" 200 "c" 6]).
  - reflexivity.
  - repeat constructor.
  - by vm_compute.
  - repeat constructor; by vm_compute.
Defined.

(** X16. What is written comes back from the batch lookup: after
    [InsertDeviceKeys] has written a record, under the uniqueness
    constraint and with the writes committed, [SelectBatchDeviceKeys] for
    the user and the device of the record returns that record alone, with
    the bytes of its [KeyJSON] as they were written. *)
Theorem insert_then_batch_lookup (txn : option Tx) (k : DeviceMessage) (w : World)
    (rows : list Row) :
  store_of txn w = Some rows →
  unique_keys rows →
  engine_ok w →
  ∃ w1 w2 w3,
    InsertDeviceKeys txn [k] w = Returned None w1 ∧
    caller_commits txn w1 = Returned () w2 ∧
    SelectBatchDeviceKeys (UserID k) [DeviceID k] w2 = Returned ([k], None) w3.
Proof.
  intros Hs Hu Hok.
  pose proof (InsertDeviceKeys_ok txn [k] w rows Hs (engine_ok_quiet _ _ Hok)) as H1.
  set (t' := upsert_all [k] (clock w) rows) in *.
  set (w1 := advance (length [k]) (write_rows txn t' w)) in *.
  assert (Hs1 : store_of txn w1 = Some t') by apply store_of_written.
  destruct (caller_commits_table txn t' w1 Hs1) as (w2 & H2 & Ht2 & Hf2 & _).
  assert (Hok2 : engine_ok w2).
  { unfold engine_ok. rewrite Hf2. by apply engine_ok_written. }
  destruct (SelectBatchDeviceKeys_ok (UserID k) [DeviceID k] w2 Hok2)
    as (result & w3 & H3 & Hp & _).
  exists w1, w2, w3. split_and!; [done|done|]. rewrite H3. do 2 f_equal.
  apply (proj1 (Permutation_singleton_r _ _)). rewrite Hp.
  apply (proj2 (Permutation_singleton_r _ _)).
  rewrite Ht2.
  rewrite (list_filter_iff _ (λ r, row_key r = (UserID k, DeviceID k))).
  2:{ intros r. unfold wanted, row_key. rewrite list_elem_of_singleton.
      split; [intros [-> [?| ->]]; done | intros [= -> ->]; auto]. }
  pose proof (unique_at_most_one (UserID k, DeviceID k) t') as Hone.
  assert (Hst : stored (UserID k) (DeviceID k) t' =
                Some (mkRow (UserID k) (DeviceID k)
                        (from_option ts_added_secs (hd 0 (clock w))
                           (stored (UserID k) (DeviceID k) rows))
                        (String.string_of_list_byte (KeyJSON k)) (StreamID k)))
    by apply upsert_stored.
  unfold stored in Hst at 1.
  destruct (filter _ t') as [|a [|b l]]; [done| |].
  - simpl in Hst. injection Hst as ->. simpl. unfold row_message. simpl.
    rewrite String.list_byte_of_string_of_list_byte. by destruct k.
  - exfalso. assert (unique_keys t') by (subst t'; by apply upsert_all_unique).
    specialize (Hone ltac:(done)). simpl in Hone. lia.
Qed.

(** The hypotheses of [insert_then_batch_lookup] hold on the sample data. *)
Lemma insert_then_batch_lookup_witness :
  ∃ w1 w2 w3,
    InsertDeviceKeys None [sample_C] world_one = Returned None w1 ∧
    caller_commits None w1 = Returned () w2 ∧
    SelectBatchDeviceKeys (UserID sample_C) [DeviceID sample_C] w2 =
      Returned ([sample_C], None) w3.
Proof.
  apply (insert_then_batch_lookup None sample_C world_one (table world_one)).
  - reflexivity.
  - unfold unique_keys. simpl. apply NoDup_singleton.
  - constructor.
Defined.

(** ** [NewSqliteDeviceKeysTable] *)

(** X17. Construction fails fast: the schema and the four statements are
    five calls into the engine; the first that fails ends the construction,
    which returns nil and that error without making the calls after it;
    when none fails the four statements are those of the four texts.  In
    either case the rows are not touched. *)
Theorem construction_fails_fast (w : World) :
  NewSqliteDeviceKeysTable w =
    match first_fault 5 (faults w) with
    | Some (i, msg) =>
        Returned (None, Some (ErrEngine msg)) (set_faults (drop (S i) (faults w)) w)
    | None =>
        Returned
          (Some (mkDeviceKeysStatements (Some SQL_upsertDeviceKeys)
                   (Some SQL_selectDeviceKeys) (Some SQL_selectBatchDeviceKeys)
                   (Some SQL_selectMaxStreamForUser)),
           None)
          (set_faults (drop 5 (faults w)) w)
    end.
Proof.
  destruct w as [t x c fs].
  destruct fs as [|[?|] [|[?|] [|[?|] [|[?|] [|[?|] fs]]]]]; reflexivity.
Qed.

(** ** New pairs *)

Lemma upsert_new u d ts kj sid : ∀ t,
  stored u d t = None →
  upsertDeviceKeysSQL u d ts kj sid t = t ++ [mkRow u d ts kj sid].
Proof.
  unfold stored. induction t as [|r t IH]; [done|]. cbn [upsertDeviceKeysSQL].
  destruct (decide (row_key r = (u, d))) as [E|N].
  - by rewrite filter_cons_True.
  - rewrite filter_cons_False by done. intros H. by rewrite IH.
Qed.

(** X18. The first write of a pair adds one row at the end, stamped with
    the reading of the clock taken for that record: when the pair of the
    record has no row and the engine accepts the write, the rows afterwards
    are the rows there were followed by the row of the record with
    [ts_added_secs] set to [time.Now().Unix()]. *)
Theorem insert_new_pair_appends (txn : option Tx) (k : DeviceMessage) (w : World)
    (rows : list Row) :
  store_of txn w = Some rows →
  stored (UserID k) (DeviceID k) rows = None →
  quiet 1 (faults w) →
  ∃ now w1 w',
    time_Now_Unix w = Returned now w1 ∧
    InsertDeviceKeys txn [k] w = Returned None w' ∧
    store_of txn w' =
      Some (rows ++ [mkRow (UserID k) (DeviceID k) now
                       (String.string_of_list_byte (KeyJSON k)) (StreamID k)]).
Proof.
  intros Hs Hnew Hq. eexists _, _, _. split_and!.
  - reflexivity.
  - by apply InsertDeviceKeys_ok.
  - rewrite store_of_written. simpl. by rewrite upsert_new.
Qed.

(** The hypotheses of [insert_new_pair_appends] hold on the sample data. *)
Lemma insert_new_pair_appends_witness :
  ∃ now w1 w',
    time_Now_Unix world_one = Returned now w1 ∧
    InsertDeviceKeys None [sample_C] world_one = Returned None w' ∧
    store_of None w' =
      Some (table world_one ++
              [mkRow (UserID sample_C) (DeviceID sample_C) now
                 (String.string_of_list_byte (KeyJSON sample_C)) (StreamID sample_C)]).
Proof.
  apply (insert_new_pair_appends None sample_C world_one (table world_one)).
  - reflexivity.
  - reflexivity.
  - repeat constructor.
Defined.
